(** * ReactPerformanceDemo: the naive and the optimized product list

    A shallow embedding of [src/App.tsx] (the naive list) and of the optimized
    [App] of [src/ProductDetails.tsx]: the item factory, the filter/sort/total
    pipeline, the [useMemo] cells around it, the favourite set and the row
    components, followed by the properties the specification states about
    them.

    Conventions.
    - A JavaScript [number] that the program only ever uses as an integer
      (ids, prices, indices, lengths) is a [Z]; it stands for the double of
      that value. Where the program adds, subtracts or multiplies numbers
      the result is rounded as the double arithmetic of the host rounds it
      ([Double.round]: the nearest double, ties to even); sums that leave
      the finite doubles are outside the model.
    - A JavaScript string is the list of its UTF-16 code units.
    - Arrays and [Set]s are objects: they live in a heap ([gmap]) and the
      program holds locations, so that identity ([Object.is]) and in-place
      updates are visible.
    - [String.prototype.toLowerCase], [String.prototype.localeCompare],
      [Math.random] and [Number.prototype.toString(36)] belong to the host;
      they are section variables and only the laws a proof needs are assumed. *)

From Stdlib Require Import ZArith QArith Qround List Permutation Lia String Ascii Bool.
From Stdlib Require Import DecimalString Lqa FinFun Sorted.
From stdpp Require Import gmap.
Import ListNotations.

Local Open Scope Z_scope.

(** ** Strings *)

Module JsString.

Definition code_unit : Type := N.
Definition t : Type := list code_unit.

(** A literal of the source whose characters are all below U+0100. *)
Definition lit (s : string) : t :=
  List.map N_of_ascii (list_ascii_of_string s).

(** Truthiness of a string: only the empty string is falsy. *)
Definition truthy (s : t) : bool :=
  match s with [] => false | _ :: _ => true end.

(** [s.startsWith(p)] at position 0. *)
Fixpoint startsWith (s p : t) : bool :=
  match p, s with
  | [], _ => true
  | _ :: _, [] => false
  | c :: p', d :: s' => N.eqb c d && startsWith s' p'
  end.

(** [s.includes(p)]: [p] occurs in [s] at some position. *)
Fixpoint includes (s p : t) : bool :=
  startsWith s p ||
  match s with
  | [] => false
  | _ :: s' => includes s' p
  end.

(** [s.slice(from, to)] for non-negative indices. *)
Definition slice (s : t) (from to : nat) : t :=
  firstn (to - from) (skipn from s).

(** The decimal rendering of a non-negative integer, as the template literal
    [`${i + 1}`] produces it (below 1e21). *)
Definition decimal (n : N) : t :=
  lit (NilZero.string_of_uint (N.to_uint n)).

End JsString.

Abbreviation js_string := JsString.t.

(** ** Numbers

    The result of an arithmetic operation on doubles is the exact result
    rounded to the nearest double (53 significant bits), ties to the even
    significand. *)

Module Double.

(** [2^s] *)
Definition pow2 (s : Z) : Q :=
  if 0 <=? s then inject_Z (2 ^ s) else 1 # Z.to_pos (2 ^ (- s)).

(** The exponent of a positive [x]: the [e] with [2^e <= x < 2^(e+1)]. *)
Definition ilog2 (x : Q) : Z :=
  let n := Qnum x in
  let d := Zpos (Qden x) in
  let k := Z.log2 n - Z.log2 d in
  if n * 2 ^ Z.max (- k) 0 <? d * 2 ^ Z.max k 0 then k - 1 else k.

(** The integer nearest to [q], the even one of two equally near. *)
Definition nearestEven (q : Q) : Z :=
  let f := Qfloor q in
  match (q - inject_Z f ?= 1 # 2)%Q with
  | Lt => f
  | Gt => f + 1
  | Eq => if Z.even f then f else f + 1
  end.

(** A positive [x] rounded to a multiple of its unit in the last place,
    [2^(e - 52)] (below [2^-1022] the unit stays [2^-1074]). *)
Definition roundPositive (x : Q) : Q :=
  let e := Z.max (ilog2 x) (-1022) in
  let ulp := pow2 (e - 52) in
  (inject_Z (nearestEven (x / ulp)) * ulp)%Q.

Definition round (x : Q) : Q :=
  match Qnum x with
  | Z0 => 0%Q
  | Zpos _ => roundPositive x
  | Zneg _ => (- roundPositive (- x))%Q
  end.

(** [a + b] on integer-valued doubles; the result is integer-valued. *)
Definition add (a b : Z) : Z := Qfloor (round (inject_Z (a + b))).

End Double.

(** ** Items *)

Record Item : Type := mkItem {
  id : Z;
  name : js_string;
  price : Z;
  category : js_string
}.

Definition CATEGORIES : list js_string :=
  [ JsString.lit "Hardware"; JsString.lit "Software";
    JsString.lit "Books"; JsString.lit "Accessories" ].

(** The union type ["name" | "price"]. *)
Inductive SortKey : Type := ByName | ByPrice.

#[global] Instance SortKey_eq_dec : EqDecision SortKey.
Proof. solve_decision. Defined.

(** ** [Array.prototype.sort]

    ECMAScript requires the sort to be stable; for a consistent comparator
    the result is then uniquely determined ([sort_unique] below), and [sort]
    computes it by stable insertion: the head, which comes first in the
    input, is placed before the first element it does not compare greater
    than. *)

Section Sort.
Context {A : Type}.
Variable cmp : A -> A -> Z.

Fixpoint placeBefore (x : A) (l : list A) : list A :=
  match l with
  | [] => [x]
  | y :: l' => if cmp x y <=? 0 then x :: y :: l' else y :: placeBefore x l'
  end.

Definition sort (l : list A) : list A := fold_right placeBefore [] l.

End Sort.

(** ** The derived view: filter, sort, total *)

Section View.

(** Host functions. *)
Variable toLowerCase : js_string -> js_string.
Variable localeCompare : js_string -> js_string -> Z.

(** The comparator both lists pass to [sort]:
    [sortBy === "name" ? a.name.localeCompare(b.name) : a.price - b.price]. *)
Definition compareItems (sortBy : SortKey) (a b : Item) : Z :=
  match sortBy with
  | ByName => localeCompare (name a) (name b)
  | ByPrice => Double.add (price a) (- price b)
  end.

(** [(it) => it.name.toLowerCase().includes(q)] *)
Definition matches (q : js_string) (it : Item) : bool :=
  JsString.includes (toLowerCase (name it)) q.

(** [items.filter((it) => it.name.toLowerCase().includes(search.toLowerCase()))]:
    the sequence before sorting. *)
Definition filteredItems (items : list Item) (search : js_string) : list Item :=
  List.filter (matches (toLowerCase search)) items.

(** [App.tsx], [naiveList]: contents of the array the expression yields. *)
Definition naiveList (items : list Item) (search : js_string) (sortBy : SortKey)
  : list Item :=
  sort (compareItems sortBy) (filteredItems items search).

(** [ProductDetails.tsx], the body of the [useMemo] callback of
    [optimizedList]: contents of [sorted]. *)
Definition optimizedList (items : list Item) (deferredSearch : js_string)
  (sortBy : SortKey) : list Item :=
  let q := toLowerCase deferredSearch in
  let base := if JsString.truthy q then List.filter (matches q) items else items in
  sort (compareItems sortBy) base.

(** [list.reduce((acc, item) => acc + item.price, 0)] *)
Definition total (rows : list Item) : Z :=
  fold_left (fun acc item => Double.add acc (price item)) rows 0.

End View.

(** ** Objects: a heap of arrays

    The heap holds the arrays of items. Every array of items the program
    creates is a fresh location; [Array.prototype.sort] rewrites the array
    it is called on and returns that same array. Arrays that hold no items
    (the elements mapped from the rows, the slots of
    [Array.from({ length: 500 })], the dependency lists of the hooks) are
    not objects of this heap. *)

Definition loc : Type := positive.

Abbreviation heap := (gmap loc (list Item)).

Definition deref (h : heap) (r : loc) : list Item := default [] (h !! r).

Definition alloc (v : list Item) (h : heap) : heap * loc :=
  let r := fresh (dom h) in (<[r := v]> h, r).

(** [arr.filter(f)]: a new array. *)
Definition array_filter (f : Item -> bool) (arr : loc) (h : heap) : heap * loc :=
  alloc (List.filter f (deref h arr)) h.

(** [[...arr]]: a new array with the same elements. *)
Definition array_spread (arr : loc) (h : heap) : heap * loc :=
  alloc (deref h arr) h.

(** [arr.sort(cmp)]: sorts [arr] in place and returns [arr]. *)
Definition array_sort (cmp : Item -> Item -> Z) (arr : loc) (h : heap) : heap * loc :=
  (alter (sort cmp) arr h, arr).

(** [arr.reduce((acc, item) => acc + item.price, 0)]: reads [arr] only. *)
Definition array_total (arr : loc) (h : heap) : Z := total (deref h arr).

(** ** [useMemo]

    A memo cell keeps the dependencies and the value of the last run of its
    callback. On the first render the callback runs; on a later render it
    runs again only if some dependency differs ([Object.is]) from the stored
    one, otherwise the stored value is returned as it is. The boolean tells
    whether the callback ran. *)

Definition useMemo {S D V : Type} `{EqDecision D}
  (cell : option (D * V)) (deps : D) (create : S -> S * V) (s : S)
  : S * option (D * V) * V * bool :=
  match cell with
  | Some (prevDeps, value) =>
      if decide (prevDeps = deps) then (s, cell, value, false)
      else let '(s', v) := create s in (s', Some (deps, v), v, true)
  | None => let '(s', v) := create s in (s', Some (deps, v), v, true)
  end.

(** ** The optimized [App]: the memoized derived view *)

Section Engine.

Variable toLowerCase : js_string -> js_string.
Variable localeCompare : js_string -> js_string -> Z.

(** [App.tsx]: the inline computation of one render of the naive [App]. *)
Definition naiveView (items : loc) (search : js_string) (sortBy : SortKey)
  (h : heap) : heap * (loc * Z) :=
  let '(h1, filtered) :=
    array_filter (matches toLowerCase (toLowerCase search)) items h in
  let '(h2, naiveList) := array_sort (compareItems localeCompare sortBy) filtered h1 in
  (h2, (naiveList, array_total naiveList h2)).

(** The callback of the first [useMemo]. *)
Definition createOptimizedList (items : loc) (deferredSearch : js_string)
  (sortBy : SortKey) (h : heap) : heap * loc :=
  let q := toLowerCase deferredSearch in
  let '(h1, base) :=
    if JsString.truthy q then array_filter (matches toLowerCase q) items h
    else (h, items) in
  let '(h2, copy) := array_spread base h1 in
  array_sort (compareItems localeCompare sortBy) copy h2.

(** The callback of the second [useMemo]. *)
Definition createTotal (optimizedList : loc) (h : heap) : heap * Z :=
  (h, array_total optimizedList h).

(** The heap, the two memo cells of the component, and how many times each
    callback has run so far. *)
Record Engine : Type := mkEngine {
  objects : heap;
  listCell : option ((loc * js_string * SortKey) * loc);
  totalCell : option (loc * Z);
  listRuns : nat;
  totalRuns : nat
}.

(** The component before its first render. *)
Definition mount (h : heap) : Engine :=
  {| objects := h; listCell := None; totalCell := None;
     listRuns := 0; totalRuns := 0 |}.

Definition tick (ran : bool) (n : nat) : nat := if ran then S n else n.

(** One render of the optimized [App]: the value of [(optimizedList, total)]. *)
Definition render (items : loc) (deferredSearch : js_string) (sortBy : SortKey)
  (e : Engine) : Engine * (loc * Z) :=
  let '(h1, c1, optimizedList, ran1) :=
    useMemo (listCell e) (items, deferredSearch, sortBy)
      (createOptimizedList items deferredSearch sortBy) (objects e) in
  let '(h2, c2, total, ran2) :=
    useMemo (totalCell e) optimizedList (createTotal optimizedList) h1 in
  ({| objects := h2; listCell := c1; totalCell := c2;
      listRuns := tick ran1 (listRuns e); totalRuns := tick ran2 (totalRuns e) |},
   (optimizedList, total)).

(** The states of the component: it is mounted on some heap and then
    rendered any number of times, each time with an [items] array that
    exists. *)
Inductive reachable : Engine -> Prop :=
| reachable_mount (h : heap) : reachable (mount h)
| reachable_render (e : Engine) (items : loc) (q : js_string) (k : SortKey) :
    reachable e -> is_Some (objects e !! items) ->
    reachable (fst (render items q k e)).

(** What the cells hold matches the heap: the list cell holds an array with
    the rows of its dependencies, the total cell holds the total of that
    very array. *)
Definition coherent (e : Engine) : Prop :=
  match listCell e, totalCell e with
  | None, None => True
  | Some ((items, q, k), rows), Some (rows', t) =>
      rows' = rows
      /\ is_Some (objects e !! items)
      /\ objects e !! rows
         = Some (optimizedList toLowerCase localeCompare (deref (objects e) items) q k)
      /\ t = total (deref (objects e) rows)
  | _, _ => False
  end.

End Engine.

(** ** The favourite set

    [favorites] is a [Set<number>] held in React state; both toggles build a
    new [Set] from the current one, flip one id in the new one and store it. *)

Module Favorites.

Abbreviation set_heap := (gmap loc (gset Z)).

Definition members (h : set_heap) (s : loc) : gset Z := default ∅ (h !! s).

(** [new Set(prev)] *)
Definition set_copy (prev : loc) (h : set_heap) : set_heap * loc :=
  let next := fresh (dom h) in (<[next := members h prev]> h, next).

(** [s.has(x)] *)
Definition has (h : set_heap) (s : loc) (x : Z) : bool :=
  bool_decide (x ∈ members h s).

(** [s.delete(x)] and [s.add(x)] update [s] itself. *)
Definition set_delete (s : loc) (x : Z) (h : set_heap) : set_heap :=
  alter (fun m => m ∖ {[x]}) s h.

Definition set_add (s : loc) (x : Z) (h : set_heap) : set_heap :=
  alter (fun m => m ∪ {[x]}) s h.

(** The body shared by [naiveToggle] and the updater of [optToggle]:
    [const next = new Set(prev); next.has(id) ? next.delete(id) : next.add(id);]
    and [next] is the new state. *)
Definition toggle (prev : loc) (x : Z) (h : set_heap) : set_heap * loc :=
  let '(h1, next) := set_copy prev h in
  let h2 := if has h1 next x then set_delete next x h1 else set_add next x h1 in
  (h2, next).

(** [App.tsx]: [naiveToggle] reads the [favorites] of the current render. *)
Definition naiveToggle (favorites : loc) (x : Z) (h : set_heap) : set_heap * loc :=
  toggle favorites x h.

(** [ProductDetails.tsx]: [optToggle] passes an updater to [setFavorites]. *)
Definition optToggle (x : Z) (favorites : loc) (h : set_heap) : set_heap * loc :=
  (fun prev => toggle prev x h) favorites.

End Favorites.

(** ** Row components *)

(** What a row shows: name, price, category, the star and [calc:]. *)
Record RowVisual : Type := mkRowVisual {
  shown_name : js_string;
  shown_price : Z;
  shown_category : js_string;
  shown_star : bool;
  shown_calc : Z
}.

(** [for (let i = 0; i < n; i++) acc += price] *)
Fixpoint addRepeatedly (n : nat) (acc price : Z) : Z :=
  match n with
  | O => acc
  | S n' => addRepeatedly n' (Double.add acc price) price
  end.

(** The callback of [fakeCalc]; [%] is the remainder that takes the sign of
    the dividend. *)
Definition fakeCalc (price : Z) : Z := Z.rem (addRepeatedly 500 0 price) 7.

(** [NaiveRow]: [Array.from({ length: 500 }).reduce((acc) => acc + item.price, 0)]
    on every render, shown as [cents % 7]. *)
Definition NaiveRow (item : Item) (isFavorite : bool) : RowVisual :=
  let cents :=
    fold_left (fun acc (_ : unit) => Double.add acc (price item)) (repeat tt 500) 0 in
  {| shown_name := name item; shown_price := price item;
     shown_category := category item; shown_star := isFavorite;
     shown_calc := Z.rem cents 7 |}.

(** [OptimizedRow]: the same row with [fakeCalc] behind a [useMemo] whose
    only dependency is [item.price]. [cell] is the memo cell of this row
    instance. *)
Definition OptimizedRow (cell : option (Z * Z)) (item : Item) (isFavorite : bool)
  : option (Z * Z) * RowVisual :=
  let '(_, cell', calc, _) :=
    useMemo cell (price item) (fun u : unit => (u, fakeCalc (price item))) tt in
  (cell',
   {| shown_name := name item; shown_price := price item;
      shown_category := category item; shown_star := isFavorite;
      shown_calc := calc |}).

(** The memo cell of a row instance after it has rendered the given props,
    oldest first. *)
Definition rowCell (history : list (Item * bool)) : option (Z * Z) :=
  fold_left (fun cell p => fst (OptimizedRow cell (fst p) (snd p))) history None.

(** A memo cell of a row is valid when its value is the calculation on its
    dependency. *)
Definition validCell (cell : option (Z * Z)) : Prop :=
  match cell with
  | Some (p, v) => v = fakeCalc p
  | None => True
  end.

(** [itemData] of the virtual list: the row array and the favourite set. *)
Record ItemData : Type := mkItemData {
  data_list : loc;
  data_favorites : loc
}.

(** [arr[index]]: [None] stands for [undefined]. *)
Definition array_get (l : list Item) (index : Z) : option Item :=
  if index <? 0 then None else nth_error l (Z.to_nat index).

(** [RowRenderer]: the props it hands to [OptimizedRow]. [None] is the
    [TypeError] that [item.id] raises when [data.list[index]] is [undefined]. *)
Definition RowRenderer (index : Z) (data : ItemData) (h : heap)
  (sets : Favorites.set_heap) : option (Item * bool) :=
  match array_get (deref h (data_list data)) index with
  | Some item => Some (item, Favorites.has sets (data_favorites data) (id item))
  | None => None
  end.

(** ** The visible window *)

Definition clamp (lo hi x : Z) : Z := Z.max lo (Z.min hi x).

(** Modelled from the spec: the window computation of the Windowed Renderer.
    The source hands it to [FixedSizeList] of react-window, whose code is not
    in the repository; the source only fixes [height = 320], [itemSize = 44]
    and [itemCount = optimizedList.length]. Following sections 4.4 and 7:
    the scroll offset is clamped to the content (between 0 and the content
    height less the viewport height); the window holds the rows that
    intersect [offset, offset + viewportHeight), widened by [overscan] rows
    on each side, and is clamped to [0, R]. *)
Definition visibleWindow (R rowHeight viewportHeight scrollOffset : Z)
  (overscan : N) : Z * Z :=
  let maxOffset := Z.max 0 (R * rowHeight - viewportHeight) in
  let offset := clamp 0 maxOffset scrollOffset in
  let firstVisible := offset / rowHeight in
  let pastVisible := (offset + viewportHeight + rowHeight - 1) / rowHeight in
  (clamp 0 R (firstVisible - Z.of_N overscan),
   clamp 0 R (pastVisible + Z.of_N overscan)).

Definition windowSize (w : Z * Z) : Z := snd w - fst w.

(** ** The item store *)

Inductive thrown (A : Type) : Type :=
| Returned (a : A)
| RangeError.
Arguments Returned {A} a.
Arguments RangeError {A}.

(** [Math.round]: the nearest integer, halves upwards. *)
Definition round (x : Q) : Z := Qfloor (x + (1 # 2))%Q.

(** [ToLength], as [Array.from] applies it to [length]. *)
Definition toLength (n : Z) : Z := Z.min (Z.max n 0) (2 ^ 53 - 1).

Section ItemStore.

(** [random k] is what the [k]-th call of [Math.random()] returns, counted
    from the call of [createItems]. *)
Variable random : nat -> Q.
(** [Number.prototype.toString(36)] *)
Variable toString36 : Q -> js_string.

(** [rand(min, max)] on the draw [r]: the difference, the product and the
    sum are each rounded to a double before [Math.round]. *)
Definition rand (min max : Z) (r : Q) : Z :=
  round (Double.round
           (Double.round (r * inject_Z (Double.add max (- min))) + inject_Z min))%Q.

(** The mapping function of [Array.from], at index [i]. The template literal
    of [name] draws first, [rand(5, 500)] second. *)
Definition createItem (i : nat) : Item :=
  {| id := Z.of_nat i + 1;
     name := JsString.lit "Product " ++ JsString.decimal (N.of_nat i + 1)
             ++ [32%N; 183%N; 32%N]
             ++ JsString.slice (toString36 (random (2 * i))) 2 8;
     price := rand 5 500 (random (2 * i + 1));
     category := nth (i mod length CATEGORIES) CATEGORIES [] |}.

(** [createItems(n)]: [Array.from({ length: n }, ...)] takes [ToLength(n)]
    and constructs [new Array(len)], which throws a [RangeError] when [len]
    exceeds [2^32 - 1]. *)
Definition createItems (n : Z) : thrown (list Item) :=
  let len := toLength n in
  if len <=? 2 ^ 32 - 1 then Returned (List.map createItem (seq 0 (Z.to_nat len)))
  else RangeError.

End ItemStore.

(** ** What the specification compares the code with *)

(** The specification's word for the filter: the lower-cased name contains
    the lower-cased filter text somewhere. *)
Definition containsIgnoringCase (toLowerCase : js_string -> js_string)
  (text q : js_string) : Prop :=
  exists pre suf, toLowerCase text = pre ++ toLowerCase q ++ suf.

(** The brute-force filter of the specification: try every position. *)
Definition occursAt (s p : js_string) (i : nat) : bool :=
  bool_decide (firstn (length p) (skipn i s) = p).

Definition bruteForceContains (s p : js_string) : bool :=
  existsb (occursAt s p) (seq 0 (S (length s))).

Definition bruteForceFilter (toLowerCase : js_string -> js_string)
  (items : list Item) (q : js_string) : list Item :=
  List.filter
    (fun it => bruteForceContains (toLowerCase (name it)) (toLowerCase q)) items.

(** The specification's aggregate: the sum of [price] over the rows. *)
Definition sumOfPrices (rows : list Item) : Z :=
  foldr Z.add 0 (List.map price rows).

(** Prices whose sums are doubles whatever the order and the selection: no
    price is negative and all of them together are at most 2^53. *)
Definition exactPrices (rows : list Item) : Prop :=
  List.Forall (fun it => 0 <= price it) rows /\ sumOfPrices rows <= 2 ^ 53.

(** Two items have the same sort key. *)
Definition sameKey (sortBy : SortKey) (a b : Item) : bool :=
  match sortBy with
  | ByName => bool_decide (name a = name b)
  | ByPrice => price a =? price b
  end.

(** [a] occurs somewhere before [b] in [l]. *)
Definition before {A : Type} (a b : A) (l : list A) : Prop :=
  exists l1 l2 l3, l = l1 ++ a :: l2 ++ b :: l3.

(** [a] sorts strictly before [b] under the host's collation. *)
Definition precedes (localeCompare : js_string -> js_string -> Z)
  (a b : js_string) : Prop :=
  localeCompare a b < 0 /\ 0 < localeCompare b a.

(** ** A host to run the scenarios on: ASCII case mapping, code-unit order *)

Module Sample.

Definition toLowerCase (s : js_string) : js_string :=
  List.map (fun c => if (65 <=? c)%N && (c <=? 90)%N then (c + 32)%N else c) s.

Fixpoint localeCompare (a b : js_string) : Z :=
  match a, b with
  | [], [] => 0
  | [], _ :: _ => -1
  | _ :: _, [] => 1
  | c :: a', d :: b' =>
      match N.compare c d with
      | Lt => -1
      | Gt => 1
      | Eq => localeCompare a' b'
      end
  end.

(** A stream of draws in [0, 1): a linear congruential generator over 2^16. *)
Fixpoint lcg (k : nat) : Z :=
  match k with
  | O => 12345
  | S k' => (lcg k' * 25173 + 13849) mod 65536
  end.

Definition random (k : nat) : Q := (lcg k # 65536)%Q.

Definition toString36 (_ : Q) : js_string := JsString.lit "0.k3x9q2m7".

Definition Zeta : Item :=
  {| id := 1; name := JsString.lit "Zeta"; price := 10; category := [] |}.
Definition Alpha : Item :=
  {| id := 2; name := JsString.lit "Alpha"; price := 50; category := [] |}.
Definition Beta : Item :=
  {| id := 3; name := JsString.lit "Beta"; price := 10; category := [] |}.

Definition dataset : list Item := [Zeta; Alpha; Beta].

End Sample.

(** * Properties *)

(** ** Numbers *)

(** The doubles nearest to 0.1 and to 1/3; above 2^53 the odd integers are
    rounded to the even significand. *)
Example round_examples :
  Double.round (1 # 10) == 3602879701896397 # 36028797018963968
  /\ Double.round (1 # 3) == 6004799503160661 # 18014398509481984
  /\ Double.add (2 ^ 53) 1 = 2 ^ 53
  /\ Double.add (2 ^ 53) 3 = 2 ^ 53 + 4
  /\ Double.add (- 2 ^ 53) (-1) = - 2 ^ 53
  /\ Double.add 10 50 = 60.
Proof. repeat split; vm_compute; reflexivity. Qed.

Lemma nearestEven_le (q : Q) (c : Z) :
  (q <= inject_Z c)%Q -> Double.nearestEven q <= c.
Proof.
  intros Hq. unfold Double.nearestEven. cbv zeta.
  pose proof (Qfloor_le q) as Hf.
  assert (Hfn : Qfloor q <= c).
  { rewrite <- (Qfloor_Z c). apply Qfloor_resp_le, Hq. }
  destruct (Qcompare_spec (q - inject_Z (Qfloor q)) (1 # 2)) as [He | Hl | Hg].
  - assert (Qfloor q < c); [| destruct (Z.even (Qfloor q)); lia].
    rewrite Zlt_Qlt. lra.
  - exact Hfn.
  - assert (Qfloor q < c); [| lia].
    rewrite Zlt_Qlt. lra.
Qed.

Lemma nearestEven_ge (q : Q) (c : Z) :
  (inject_Z c <= q)%Q -> c <= Double.nearestEven q.
Proof.
  intros Hq. unfold Double.nearestEven. cbv zeta.
  assert (Hfn : c <= Qfloor q).
  { rewrite <- (Qfloor_Z c). apply Qfloor_resp_le, Hq. }
  destruct (q - inject_Z (Qfloor q) ?= 1 # 2)%Q; [destruct (Z.even (Qfloor q)) | |]; lia.
Qed.

Lemma ilog2_le_52 (x : Q) :
  0 < Qnum x -> (x < inject_Z (2 ^ 53))%Q -> Double.ilog2 x <= 52.
Proof.
  intros Hn Hx. unfold Double.ilog2. cbv zeta.
  unfold Qlt in Hx. cbn [Qnum Qden inject_Z] in Hx. rewrite Z.mul_1_r in Hx.
  set (n := Qnum x) in *. set (d := Z.pos (Qden x)) in *.
  assert (Hd : 0 < d) by (unfold d; lia).
  pose proof (Z.log2_spec n Hn) as [Ln _].
  pose proof (Z.log2_spec d Hd) as [_ Ld].
  pose proof (Z.log2_nonneg n) as Nn. pose proof (Z.log2_nonneg d) as Nd.
  set (k := Z.log2 n - Z.log2 d) in *.
  destruct (Z.ltb_spec (n * 2 ^ Z.max (- k) 0) (d * 2 ^ Z.max k 0)) as [Hlt | Hge].
  - destruct (Z_le_gt_dec k 53) as [Hk | Hk]; [lia |]. exfalso.
    assert (E : Z.log2 n = k + Z.log2 d) by (unfold k; lia).
    rewrite E, Z.pow_add_r in Ln by lia.
    rewrite Z.pow_succ_r in Ld by lia.
    assert (2 ^ 54 <= 2 ^ k) by (apply Z.pow_le_mono_r; lia).
    assert (0 < 2 ^ Z.log2 d) by (apply Z.pow_pos_nonneg; lia).
    change (2 ^ 53) with 9007199254740992 in Hx.
    change (2 ^ 54) with 18014398509481984 in *.
    nia.
  - destruct (Z_le_gt_dec k 52) as [Hk | Hk]; [exact Hk |]. exfalso.
    rewrite Z.max_l, Z.max_r in Hge by lia. rewrite Z.pow_0_r, Z.mul_1_r in Hge.
    assert (2 ^ 53 <= 2 ^ k) by (apply Z.pow_le_mono_r; lia).
    change (2 ^ 53) with 9007199254740992 in *. nia.
Qed.

Lemma pow2_nonpos (s : Z) :
  s <= 0 -> (Double.pow2 s == 1 / inject_Z (2 ^ (- s)))%Q /\ 0 < 2 ^ (- s).
Proof.
  intros Hs. assert (P : 0 < 2 ^ (- s)) by (apply Z.pow_pos_nonneg; lia).
  split; [| exact P]. unfold Double.pow2.
  destruct (Z.leb_spec 0 s) as [H0 | Hneg].
  - assert (s = 0) by lia. subst s. reflexivity.
  - destruct (2 ^ (- s)) as [|p|p] eqn:E; try lia.
    unfold Qeq, Qdiv, Qinv, Qmult, inject_Z. cbn. reflexivity.
Qed.

Lemma roundPositive_bounds (x : Q) (c : Z) :
  0 < Qnum x -> (x < inject_Z (2 ^ 53))%Q ->
  ((x <= inject_Z c)%Q -> (Double.roundPositive x <= inject_Z c)%Q)
  /\ ((inject_Z c <= x)%Q -> (inject_Z c <= Double.roundPositive x)%Q).
Proof.
  intros Hn Hx. unfold Double.roundPositive. cbv zeta.
  pose proof (ilog2_le_52 x Hn Hx) as He.
  set (s := Z.max (Double.ilog2 x) (-1022) - 52).
  assert (Hs : s <= 0) by (unfold s; lia).
  destruct (pow2_nonpos s Hs) as [Ep Pp].
  set (P := 2 ^ (- s)) in *.
  assert (PQ : (0 < inject_Z P)%Q)
    by (change 0%Q with (inject_Z 0); rewrite <- Zlt_Qlt; exact Pp).
  assert (Ediv : (x / Double.pow2 s == x * inject_Z P)%Q).
  { rewrite Ep. field. lra. }
  set (m := Double.nearestEven (x / Double.pow2 s)).
  assert (Emul : (inject_Z m * Double.pow2 s == inject_Z m / inject_Z P)%Q).
  { rewrite Ep. field. lra. }
  rewrite Emul. split; intros Hc.
  - assert (M : m <= c * P).
    { apply nearestEven_le. rewrite Ediv, inject_Z_mult.
      apply Qmult_le_compat_r; lra. }
    rewrite Zle_Qle, inject_Z_mult in M.
    apply Qle_shift_div_r; [exact PQ | exact M].
  - assert (M : c * P <= m).
    { apply nearestEven_ge. rewrite Ediv, inject_Z_mult.
      apply Qmult_le_compat_r; lra. }
    rewrite Zle_Qle, inject_Z_mult in M.
    apply Qle_shift_div_l; [exact PQ | exact M].
Qed.

(** Rounding never crosses an integer: below 2^53 in magnitude, a bound by
    an integer is kept. *)
Lemma round_bounds (x : Q) (c : Z) :
  (0 <= x)%Q -> (x < inject_Z (2 ^ 53))%Q ->
  ((x <= inject_Z c)%Q -> (Double.round x <= inject_Z c)%Q)
  /\ ((inject_Z c <= x)%Q -> (inject_Z c <= Double.round x)%Q).
Proof.
  intros H0 Hx. unfold Double.round.
  destruct (Qnum x) as [|p|p] eqn:E.
  - assert (x == 0)%Q by (unfold Qeq; rewrite E; reflexivity). split; lra.
  - apply roundPositive_bounds; [rewrite E; lia | exact Hx].
  - exfalso. unfold Qle in H0. cbn in H0. rewrite E in H0. lia.
Qed.

(** An integer of magnitude at most 2^53 is a double. *)
Lemma round_exact (z : Z) :
  - 2 ^ 53 <= z <= 2 ^ 53 -> (Double.round (inject_Z z) == inject_Z z)%Q.
Proof.
  intros Hz.
  assert (Pos : forall y, 0 < y <= 2 ^ 53 ->
            (Double.roundPositive (inject_Z y) == inject_Z y)%Q).
  { intros y Hy. destruct (Z.eq_dec y (2 ^ 53)) as [-> | Hne]; [reflexivity |].
    destruct (roundPositive_bounds (inject_Z y) y) as [U L].
    - cbn. lia.
    - rewrite <- Zlt_Qlt. lia.
    - apply Qle_antisym; [apply U | apply L]; apply Qle_refl. }
  unfold Double.round. destruct z as [|p|p]; cbn [Qnum inject_Z].
  - reflexivity.
  - apply (Pos (Z.pos p)). lia.
  - change (- (Z.neg p # 1))%Q with (inject_Z (Z.pos p)).
    rewrite (Pos (Z.pos p)) by lia. reflexivity.
Qed.

(** Sums of magnitude at most 2^53 are exact. *)
Lemma add_exact (a b : Z) :
  - 2 ^ 53 <= a + b <= 2 ^ 53 -> Double.add a b = a + b.
Proof.
  intros H. unfold Double.add. rewrite (Qfloor_comp _ _ (round_exact _ H)).
  apply Qfloor_Z.
Qed.

Lemma ilog2_int (z : Z) : 0 < z -> Double.ilog2 (inject_Z z) = Z.log2 z.
Proof.
  intros Hz. unfold Double.ilog2. cbn [Qnum Qden inject_Z]. cbv zeta.
  change (Z.log2 1) with 0. rewrite Z.sub_0_r.
  pose proof (Z.log2_nonneg z) as Hn. pose proof (Z.log2_spec z Hz) as [L _].
  rewrite Z.max_r, Z.max_l by lia. rewrite Z.pow_0_r.
  destruct (Z.ltb_spec (z * 1) (1 * 2 ^ Z.log2 z)); [lia | reflexivity].
Qed.

Lemma roundPositive_int_ge_1 (z : Z) :
  0 < z -> (inject_Z 1 <= Double.roundPositive (inject_Z z))%Q.
Proof.
  intros Hz. destruct (Z.lt_ge_cases z (2 ^ 53)) as [Hs | Hb].
  - apply (roundPositive_bounds (inject_Z z) 1);
      [cbn; lia | rewrite <- Zlt_Qlt; exact Hs | rewrite <- Zle_Qle; lia].
  - unfold Double.roundPositive. cbv zeta. rewrite ilog2_int by lia.
    assert (H53 : 53 <= Z.log2 z) by (apply Z.log2_le_pow2; lia).
    rewrite Z.max_l by lia.
    set (s := Z.log2 z - 52). unfold Double.pow2.
    destruct (Z.leb_spec 0 s) as [_ | Hneg]; [| lia].
    assert (P : 0 < 2 ^ s) by (apply Z.pow_pos_nonneg; lia).
    assert (Hle : 2 ^ s <= z).
    { pose proof (Z.log2_spec z Hz) as [L _]. eapply Z.le_trans; [| exact L].
      apply Z.pow_le_mono_r; lia. }
    assert (M : 1 <= Double.nearestEven (inject_Z z / inject_Z (2 ^ s))).
    { apply nearestEven_ge. apply Qle_shift_div_l.
      - change 0%Q with (inject_Z 0). rewrite <- Zlt_Qlt. exact P.
      - rewrite <- inject_Z_mult, <- Zle_Qle. lia. }
    rewrite <- inject_Z_mult, <- Zle_Qle. nia.
Qed.

(** Rounding keeps the sign of a sum of integers. *)
Lemma add_sign (a b : Z) :
  (0 < a + b -> 0 < Double.add a b)
  /\ (a + b < 0 -> Double.add a b < 0)
  /\ (a + b = 0 -> Double.add a b = 0).
Proof.
  unfold Double.add, Double.round.
  destruct (a + b) as [|p|p]; cbn [Qnum inject_Z];
    (split; [| split]); intros H; try lia; try reflexivity.
  - pose proof (roundPositive_int_ge_1 (Z.pos p) ltac:(lia)) as G.
    apply Qfloor_resp_le in G. rewrite Qfloor_Z in G.
    change (Z.pos p # 1) with (inject_Z (Z.pos p)). lia.
  - pose proof (roundPositive_int_ge_1 (Z.pos p) ltac:(lia)) as G.
    change (- (Z.neg p # 1))%Q with (inject_Z (Z.pos p)).
    assert (Qfloor (- Double.roundPositive (inject_Z (Z.pos p))) < 0); [| assumption].
    rewrite Zlt_Qlt. eapply Qle_lt_trans; [apply Qfloor_le |].
    unfold inject_Z in *. lra.
Qed.

(** The difference of two integers, rounded, compares with 0 as the exact
    difference does. *)
Lemma sub_sign (a b : Z) :
  (Double.add a (- b) <= 0 <-> a <= b)
  /\ (Double.add a (- b) = 0 <-> a = b)
  /\ (0 < Double.add a (- b) <-> b < a).
Proof.
  destruct (add_sign a (- b)) as (Pos & Neg & Zero).
  destruct (Z.lt_trichotomy (a + - b) 0) as [H | [H | H]].
  - specialize (Neg H). lia.
  - specialize (Zero H). lia.
  - specialize (Pos H). lia.
Qed.

Lemma sub_le (a b : Z) : Double.add a (- b) <= 0 <-> a <= b.
Proof. apply sub_sign. Qed.

Lemma sub_eq (a b : Z) : Double.add a (- b) = 0 <-> a = b.
Proof. apply sub_sign. Qed.

Lemma sub_gt (a b : Z) : 0 < Double.add a (- b) <-> b < a.
Proof. apply sub_sign. Qed.

Lemma sub_eqb (a b : Z) : (Double.add a (- b) =? 0) = (a =? b).
Proof.
  destruct (Z.eqb_spec a b) as [E | N].
  - apply Z.eqb_eq, sub_eq, E.
  - apply Z.eqb_neq. rewrite sub_eq. exact N.
Qed.

Lemma sub_leb (a b : Z) : (Double.add a (- b) <=? 0) = (a <=? b).
Proof.
  destruct (Z.leb_spec a b) as [L | G].
  - apply Z.leb_le, sub_le, L.
  - apply Z.leb_gt, sub_gt, G.
Qed.

(** ** Strings *)

Lemma startsWith_spec (s p : js_string) :
  JsString.startsWith s p = true <-> exists suf, s = p ++ suf.
Proof.
  revert s. induction p as [|c p IH]; intros s; simpl.
  - split; [intros _; exists s; reflexivity | destruct s; reflexivity].
  - destruct s as [|d s]; simpl.
    + split; [discriminate | intros [suf H]; discriminate H].
    + rewrite andb_true_iff, N.eqb_eq, IH. split.
      * intros [-> [suf ->]]. exists suf. reflexivity.
      * intros [suf H]. injection H as -> ->. split; [reflexivity | eauto].
Qed.

Lemma includes_spec (s p : js_string) :
  JsString.includes s p = true <-> exists pre suf, s = pre ++ p ++ suf.
Proof.
  induction s as [|d s IH]; cbn [JsString.includes];
    rewrite orb_true_iff, startsWith_spec.
  - split.
    + intros [[suf H] | H]; [exists [], suf; exact H | discriminate H].
    + intros [[|x pre] [suf H]]; [left; exists suf; exact H | discriminate H].
  - rewrite IH. split.
    + intros [[suf H] | (pre & suf & H)].
      * exists [], suf. exact H.
      * exists (d :: pre), suf. simpl. rewrite H. reflexivity.
    + intros [[|x pre] [suf H]].
      * left. exists suf. exact H.
      * right. injection H as -> ->. eauto.
Qed.

Lemma includes_empty (s : js_string) : JsString.includes s [] = true.
Proof. apply includes_spec. exists [], s. reflexivity. Qed.

Lemma bruteForceContains_spec (s p : js_string) :
  bruteForceContains s p = true <-> exists pre suf, s = pre ++ p ++ suf.
Proof.
  unfold bruteForceContains. rewrite existsb_exists. split.
  - intros (i & _ & Hi). unfold occursAt in Hi. apply bool_decide_eq_true in Hi.
    exists (take i s), (drop (length p) (drop i s)).
    assert (E : p ++ drop (length p) (drop i s) = drop i s).
    { rewrite <- Hi at 1. apply take_drop. }
    rewrite E. symmetry. apply take_drop.
  - intros (pre & suf & ->). exists (length pre). split.
    + apply in_seq. rewrite !length_app. lia.
    + unfold occursAt. apply bool_decide_eq_true.
      rewrite drop_app_length, take_app_length. reflexivity.
Qed.

(** The scan of [includes] and the brute-force search agree. *)
Lemma includes_bruteForce (s p : js_string) :
  JsString.includes s p = bruteForceContains s p.
Proof.
  apply eq_true_iff_eq. rewrite includes_spec, bruteForceContains_spec. reflexivity.
Qed.

(** ** Sorting *)

Section SortFacts.
Context {A : Type}.
Variable cmp : A -> A -> Z.

Lemma placeBefore_perm (x : A) (l : list A) :
  Permutation (placeBefore cmp x l) (x :: l).
Proof.
  induction l as [|y l IH]; simpl; [reflexivity |].
  destruct (cmp x y <=? 0); [reflexivity |].
  rewrite IH. apply perm_swap.
Qed.

Lemma sort_perm (l : list A) : Permutation (sort cmp l) l.
Proof.
  induction l as [|x l IH]; simpl; [reflexivity |].
  rewrite placeBefore_perm, IH. reflexivity.
Qed.

(** A class [P] of elements that never compare greater than one another
    keeps its order: the sort is stable on it. *)
Lemma placeBefore_stable (P : A -> bool) (x : A) (l : list A) :
  (forall y, P x = true -> P y = true -> cmp x y <= 0) ->
  List.filter P (placeBefore cmp x l) = List.filter P (x :: l).
Proof.
  intros HP. induction l as [|y l IH]; [reflexivity |].
  cbn [placeBefore]. destruct (Z.leb_spec (cmp x y) 0) as [Hle | Hgt]; [reflexivity |].
  cbn [List.filter] in *. rewrite IH.
  destruct (P x) eqn:Hx, (P y) eqn:Hy; try reflexivity.
  specialize (HP y eq_refl Hy). lia.
Qed.

Lemma sort_stable (P : A -> bool) (l : list A) :
  (forall x y, P x = true -> P y = true -> cmp x y <= 0) ->
  List.filter P (sort cmp l) = List.filter P l.
Proof.
  intros HP. induction l as [|x l IH]; [reflexivity |].
  cbn [sort fold_right]. fold (sort cmp l).
  rewrite placeBefore_stable by (intros y; apply HP).
  cbn [List.filter]. rewrite IH. reflexivity.
Qed.

(** For a consistent comparator the result is sorted, and it is the only
    sorted rearrangement of the input that keeps the order inside every
    class of elements comparing equal: whatever algorithm the host runs, a
    stable sort returns [sort cmp l]. *)
Hypothesis cmp_refl : forall a, cmp a a = 0.
Hypothesis cmp_sym : forall a b, cmp a b = 0 -> cmp b a = 0.
Hypothesis cmp_antisym : forall a b, cmp a b <= 0 -> cmp b a <= 0 -> cmp a b = 0.
Hypothesis cmp_total : forall a b, 0 < cmp a b -> cmp b a <= 0.
Hypothesis cmp_trans : forall a b c, cmp a b <= 0 -> cmp b c <= 0 -> cmp a c <= 0.

Lemma placeBefore_sorted (x : A) (l : list A) :
  StronglySorted (fun a b => cmp a b <= 0) l ->
  StronglySorted (fun a b => cmp a b <= 0) (placeBefore cmp x l).
Proof.
  induction 1 as [|y l Hs IH Hall]; cbn [placeBefore].
  - repeat constructor.
  - destruct (Z.leb_spec (cmp x y) 0) as [Hle | Hgt].
    + constructor; [constructor; assumption |].
      constructor; [exact Hle |].
      eapply List.Forall_impl; [| exact Hall]. intros z Hz. exact (cmp_trans _ _ _ Hle Hz).
    + constructor; [exact IH |].
      apply List.Forall_forall. intros z Hz.
      apply (Permutation_in _ (placeBefore_perm x l)) in Hz as [<- | Hz].
      * apply cmp_total, Hgt.
      * rewrite List.Forall_forall in Hall. apply Hall, Hz.
Qed.

Lemma sort_sorted (l : list A) :
  StronglySorted (fun a b => cmp a b <= 0) (sort cmp l).
Proof.
  induction l as [|x l IH]; [constructor |].
  apply placeBefore_sorted, IH.
Qed.

Lemma sort_stable_classes (x : A) (l : list A) :
  List.filter (fun y => cmp x y =? 0) (sort cmp l)
  = List.filter (fun y => cmp x y =? 0) l.
Proof.
  apply sort_stable. intros y z Hy Hz.
  apply Z.eqb_eq in Hy, Hz. apply cmp_sym in Hy.
  apply (cmp_trans y x z); lia.
Qed.

Lemma sorted_head_least (a : A) (l : list A) (b : A) :
  StronglySorted (fun a b => cmp a b <= 0) (a :: l) -> In b (a :: l) -> cmp a b <= 0.
Proof.
  intros Hs [<- | Hin].
  - rewrite cmp_refl. lia.
  - apply StronglySorted_inv in Hs as [_ Hall].
    rewrite List.Forall_forall in Hall. apply Hall, Hin.
Qed.

Lemma stable_sorted_unique (l1 l2 : list A) :
  StronglySorted (fun a b => cmp a b <= 0) l1 ->
  StronglySorted (fun a b => cmp a b <= 0) l2 ->
  Permutation l1 l2 ->
  (forall x, List.filter (fun y => cmp x y =? 0) l1
             = List.filter (fun y => cmp x y =? 0) l2) ->
  l1 = l2.
Proof.
  revert l2. induction l1 as [|a l1 IH]; intros l2 S1 S2 P F.
  - apply Permutation_nil in P. symmetry. exact P.
  - destruct l2 as [|b l2]; [apply Permutation_sym, Permutation_nil in P; discriminate P |].
    assert (Hab : cmp a b = 0).
    { apply cmp_antisym.
      - apply (sorted_head_least a l1 b S1).
        apply (Permutation_in _ (Permutation_sym P)). left. reflexivity.
      - apply (sorted_head_least b l2 a S2).
        apply (Permutation_in _ P). left. reflexivity. }
    assert (E : a = b).
    { pose proof (F a) as Fa. cbn [List.filter] in Fa.
      rewrite cmp_refl, Hab in Fa. cbn in Fa. congruence. }
    subst b. f_equal. apply IH.
    + apply StronglySorted_inv in S1. tauto.
    + apply StronglySorted_inv in S2. tauto.
    + apply Permutation_cons_inv in P. exact P.
    + intros x. pose proof (F x) as Fx. cbn [List.filter] in Fx.
      destruct (cmp x a =? 0); congruence.
Qed.

(** Any stable sort agrees with [sort]. *)
Lemma sort_unique (l l' : list A) :
  StronglySorted (fun a b => cmp a b <= 0) l' ->
  Permutation l' l ->
  (forall x, List.filter (fun y => cmp x y =? 0) l'
             = List.filter (fun y => cmp x y =? 0) l) ->
  l' = sort cmp l.
Proof.
  intros S P F. apply stable_sorted_unique.
  - exact S.
  - apply sort_sorted.
  - rewrite P. symmetry. apply sort_perm.
  - intros x. rewrite F. symmetry. apply sort_stable_classes.
Qed.

End SortFacts.

(** The price comparator [a.price - b.price] is consistent, so the rows
    sorted by price are the ones any stable sort returns. *)
Lemma sort_by_price_unique (localeCompare : js_string -> js_string -> Z)
  (l l' : list Item) :
  StronglySorted (fun a b => compareItems localeCompare ByPrice a b <= 0) l' ->
  Permutation l' l ->
  (forall x, List.filter (fun y => compareItems localeCompare ByPrice x y =? 0) l'
             = List.filter (fun y => compareItems localeCompare ByPrice x y =? 0) l) ->
  l' = sort (compareItems localeCompare ByPrice) l.
Proof.
  apply sort_unique; cbn [compareItems]; intros;
    rewrite ?sub_le, ?sub_eq, ?sub_gt in *; lia.
Qed.

(** ** Relative order and filtering *)

Lemma filter_true {A : Type} (f : A -> bool) (l : list A) :
  (forall x, f x = true) -> List.filter f l = l.
Proof.
  intros Hf. induction l as [|x l IH]; simpl; [reflexivity |].
  rewrite Hf, IH. reflexivity.
Qed.

Lemma filter_split {A : Type} (P : A -> bool) (l m1 m2 : list A) (a : A) :
  List.filter P l = m1 ++ a :: m2 ->
  exists l1 l2, l = l1 ++ a :: l2 /\ List.filter P l1 = m1 /\ List.filter P l2 = m2.
Proof.
  revert m1. induction l as [|x l IH]; intros m1 H; simpl in H.
  - destruct m1; discriminate H.
  - destruct (P x) eqn:Hx.
    + destruct m1 as [|y m1]; simpl in H; injection H as -> H.
      * exists [], l. auto.
      * destruct (IH _ H) as (l1 & l2 & -> & H1 & H2).
        exists (y :: l1), l2. simpl. rewrite Hx, H1. auto.
    + destruct (IH _ H) as (l1 & l2 & -> & H1 & H2).
      exists (x :: l1), l2. simpl. rewrite Hx. auto.
Qed.

Lemma before_filter {A : Type} (P : A -> bool) (a b : A) (l : list A) :
  P a = true -> P b = true ->
  (before a b l <-> before a b (List.filter P l)).
Proof.
  intros Ha Hb. split.
  - intros (l1 & l2 & l3 & ->).
    exists (List.filter P l1), (List.filter P l2), (List.filter P l3).
    rewrite List.filter_app. simpl. rewrite Ha, List.filter_app. simpl.
    rewrite Hb. reflexivity.
  - intros (m1 & m2 & m3 & H).
    apply filter_split in H as (l1 & r & -> & _ & H).
    apply filter_split in H as (l2 & l3 & -> & _ & _).
    exists l1, l2, l3. reflexivity.
Qed.

(** ** The derived view on contents *)

Section ViewFacts.

Variable toLowerCase : js_string -> js_string.
Variable localeCompare : js_string -> js_string -> Z.

Local Abbreviation naive := (naiveList toLowerCase localeCompare).
Local Abbreviation optimized := (optimizedList toLowerCase localeCompare).
Local Abbreviation filtered := (filteredItems toLowerCase).

(** The optimized list skips the filter exactly when the filter keeps
    everything, so its pre-sort sequence is the filtered one. *)
Lemma optimized_base (items : list Item) (q : js_string) :
  (if JsString.truthy (toLowerCase q)
   then List.filter (matches toLowerCase (toLowerCase q)) items else items)
  = filtered items q.
Proof.
  unfold filteredItems.
  destruct (toLowerCase q) as [|c q'] eqn:E; simpl; [| reflexivity].
  symmetry. apply filter_true. intros it. apply includes_empty.
Qed.

Lemma optimizedList_naiveList (items : list Item) (q : js_string) (k : SortKey) :
  optimized items q k = naive items q k.
Proof. unfold optimizedList, naiveList. cbv zeta. rewrite optimized_base. reflexivity. Qed.

Lemma naiveList_perm (items : list Item) (q : js_string) (k : SortKey) :
  Permutation (naive items q k) (filtered items q).
Proof. apply sort_perm. Qed.

Lemma matches_bruteForce (items : list Item) (q : js_string) :
  filtered items q = bruteForceFilter toLowerCase items q.
Proof.
  unfold bruteForceFilter, filteredItems. apply List.filter_ext. intros it.
  apply includes_bruteForce.
Qed.

Lemma sameKey_compare (k : SortKey) (a x y : Item) :
  (forall s, localeCompare s s = 0) ->
  sameKey k a x = true -> sameKey k a y = true ->
  compareItems localeCompare k x y <= 0.
Proof.
  intros Hrefl Hx Hy. destruct k; simpl in *.
  - apply bool_decide_eq_true in Hx, Hy. rewrite <- Hx, <- Hy, Hrefl. lia.
  - apply Z.eqb_eq in Hx, Hy. apply sub_le. lia.
Qed.

Lemma sameKey_refl (k : SortKey) (a : Item) : sameKey k a a = true.
Proof. destruct k; simpl; [apply bool_decide_eq_true; reflexivity | apply Z.eqb_refl]. Qed.

Lemma naiveList_stable (items : list Item) (q : js_string) (k : SortKey) (a : Item) :
  (forall s, localeCompare s s = 0) ->
  List.filter (sameKey k a) (naive items q k)
  = List.filter (sameKey k a) (filtered items q).
Proof.
  intros Hrefl. apply sort_stable. intros x y. apply sameKey_compare, Hrefl.
Qed.

Lemma naiveList_order (items : list Item) (q : js_string) (k : SortKey) (a b : Item) :
  (forall s, localeCompare s s = 0) ->
  sameKey k a b = true ->
  (before a b (naive items q k) <-> before a b (filtered items q)).
Proof.
  intros Hrefl Hab.
  rewrite (before_filter (sameKey k a) a b (naive items q k))
    by (apply sameKey_refl || exact Hab).
  rewrite (before_filter (sameKey k a) a b (filtered items q))
    by (apply sameKey_refl || exact Hab).
  rewrite naiveList_stable by exact Hrefl. reflexivity.
Qed.

Lemma sumOfPrices_nonneg (rows : list Item) :
  List.Forall (fun it => 0 <= price it) rows -> 0 <= sumOfPrices rows.
Proof. unfold sumOfPrices. induction 1; simpl; lia. Qed.

Lemma total_sum (rows : list Item) :
  exactPrices rows -> total rows = sumOfPrices rows.
Proof.
  intros [Hpos Hle]. unfold total.
  assert (G : forall acc, 0 <= acc -> acc + sumOfPrices rows <= 2 ^ 53 ->
                fold_left (fun a it => Double.add a (price it)) rows acc
                = acc + sumOfPrices rows).
  { clear Hle. induction Hpos as [|x rows Hx Hpos IH]; intros acc H0 Hs.
    - unfold sumOfPrices. simpl. lia.
    - pose proof (sumOfPrices_nonneg rows Hpos) as Hn.
      change (sumOfPrices (x :: rows)) with (price x + sumOfPrices rows) in *.
      cbn [fold_left]. rewrite add_exact by lia. rewrite IH; lia. }
  rewrite G; lia.
Qed.

Lemma sumOfPrices_perm (l l' : list Item) :
  Permutation l l' -> sumOfPrices l = sumOfPrices l'.
Proof.
  unfold sumOfPrices. induction 1; simpl; lia.
Qed.

Lemma exactPrices_perm (l l' : list Item) :
  Permutation l l' -> exactPrices l' -> exactPrices l.
Proof.
  intros P [Hpos Hle]. split.
  - apply List.Forall_forall. intros it Hin.
    apply (Permutation_in _ P) in Hin. revert it Hin. apply List.Forall_forall, Hpos.
  - rewrite (sumOfPrices_perm _ _ P). exact Hle.
Qed.

Lemma exactPrices_filter (f : Item -> bool) (l : list Item) :
  exactPrices l -> exactPrices (List.filter f l).
Proof.
  intros [Hpos Hle].
  assert (G : List.Forall (fun it => 0 <= price it) (List.filter f l)
              /\ sumOfPrices (List.filter f l) <= sumOfPrices l).
  { clear Hle. induction Hpos as [|x l Hx Hpos [IH1 IH2]]; [split; [constructor | reflexivity] |].
    cbn [List.filter].
    change (sumOfPrices (x :: l)) with (price x + sumOfPrices l).
    destruct (f x).
    - split; [constructor; assumption |].
      change (sumOfPrices (x :: List.filter f l))
        with (price x + sumOfPrices (List.filter f l)). lia.
    - split; [exact IH1 | lia]. }
  destruct G as [G1 G2]. split; [exact G1 | lia].
Qed.

Lemma exactPrices_naiveList (items : list Item) (q : js_string) (k : SortKey) :
  exactPrices items -> exactPrices (naive items q k).
Proof.
  intros H. apply (exactPrices_perm _ _ (naiveList_perm items q k)).
  apply exactPrices_filter, H.
Qed.

End ViewFacts.

(** ** Filtering *)

(** C2. For every item sequence, filter text and sort key, the rows of the
    derived view (the optimized list, and the naive list alike) are a
    rearrangement of the brute-force filter of the items (same members, same
    multiplicities, same count); an item is a row exactly when it is an item
    whose lower-cased name contains the lower-cased filter text; and the
    empty filter text keeps every item. *)
Theorem rows_are_the_matching_items
  (toLowerCase : js_string -> js_string)
  (localeCompare : js_string -> js_string -> Z)
  (items : list Item) (q : js_string) (k : SortKey) :
  toLowerCase [] = [] ->
  Permutation (optimizedList toLowerCase localeCompare items q k)
              (bruteForceFilter toLowerCase items q)
  /\ length (optimizedList toLowerCase localeCompare items q k)
     = length (bruteForceFilter toLowerCase items q)
  /\ (forall it, In it (optimizedList toLowerCase localeCompare items q k)
                 <-> In it items /\ containsIgnoringCase toLowerCase (name it) q)
  /\ naiveList toLowerCase localeCompare items q k
     = optimizedList toLowerCase localeCompare items q k
  /\ Permutation (optimizedList toLowerCase localeCompare items [] k) items
  /\ Permutation (naiveList toLowerCase localeCompare items [] k) items.
Proof.
  intros Hempty.
  assert (P : Permutation (optimizedList toLowerCase localeCompare items q k)
                          (bruteForceFilter toLowerCase items q)).
  { rewrite optimizedList_naiveList, naiveList_perm, matches_bruteForce. reflexivity. }
  assert (E : forall k', Permutation (naiveList toLowerCase localeCompare items [] k') items).
  { intros k'. rewrite naiveList_perm. unfold filteredItems. rewrite Hempty.
    rewrite filter_true; [reflexivity | intros it; apply includes_empty]. }
  split; [exact P |].
  split; [apply Permutation_length, P |].
  split; [| split; [| split]].
  - intros it. split.
    + intros Hin. apply (Permutation_in _ P) in Hin.
      apply List.filter_In in Hin as [Hin Hc].
      apply bruteForceContains_spec in Hc. split; assumption.
    + intros [Hin Hc]. apply (Permutation_in _ (Permutation_sym P)).
      apply List.filter_In. split; [exact Hin |].
      apply bruteForceContains_spec. exact Hc.
  - symmetry. apply optimizedList_naiveList.
  - rewrite optimizedList_naiveList. apply E.
  - apply E.
Qed.

Lemma rows_are_the_matching_items_witness :
  Sample.toLowerCase [] = []
  /\ Permutation
       (optimizedList Sample.toLowerCase Sample.localeCompare Sample.dataset
          (JsString.lit "Z") ByName)
       (bruteForceFilter Sample.toLowerCase Sample.dataset (JsString.lit "Z")).
Proof.
  split; [reflexivity |].
  apply (rows_are_the_matching_items Sample.toLowerCase Sample.localeCompare
           Sample.dataset (JsString.lit "Z") ByName).
  reflexivity.
Defined.

(** ** Stable sorting *)

(** C3. The sort of the derived view is stable. Whenever two items have the
    same sort key (the same name under [ByName], the same price under
    [ByPrice]), one comes before the other in the rows exactly when it does
    in the filtered sequence that was sorted; equivalently, the items that
    share a key appear in the rows in the order they had before the sort.
    On the dataset Zeta(10), Alpha(50), Beta(10) with the empty filter, on a
    host that collates Alpha before Beta before Zeta, sorting by name gives
    Alpha, Beta, Zeta and sorting by price gives Zeta, Beta, Alpha, with
    total 70 both times. *)
Theorem sort_is_stable
  (toLowerCase : js_string -> js_string)
  (localeCompare : js_string -> js_string -> Z) :
  (forall s, localeCompare s s = 0) ->
  toLowerCase [] = [] ->
  precedes localeCompare (JsString.lit "Alpha") (JsString.lit "Beta") ->
  precedes localeCompare (JsString.lit "Beta") (JsString.lit "Zeta") ->
  precedes localeCompare (JsString.lit "Alpha") (JsString.lit "Zeta") ->
  (forall items q k a b, sameKey k a b = true ->
     (before a b (optimizedList toLowerCase localeCompare items q k)
      <-> before a b (filteredItems toLowerCase items q))
     /\ (before a b (naiveList toLowerCase localeCompare items q k)
         <-> before a b (filteredItems toLowerCase items q)))
  /\ (forall items q k a,
        List.filter (sameKey k a) (optimizedList toLowerCase localeCompare items q k)
        = List.filter (sameKey k a) (filteredItems toLowerCase items q))
  /\ optimizedList toLowerCase localeCompare Sample.dataset [] ByName
     = [Sample.Alpha; Sample.Beta; Sample.Zeta]
  /\ total (optimizedList toLowerCase localeCompare Sample.dataset [] ByName) = 70
  /\ optimizedList toLowerCase localeCompare Sample.dataset [] ByPrice
     = [Sample.Zeta; Sample.Beta; Sample.Alpha]
  /\ total (optimizedList toLowerCase localeCompare Sample.dataset [] ByPrice) = 70
  /\ naiveList toLowerCase localeCompare Sample.dataset [] ByName
     = [Sample.Alpha; Sample.Beta; Sample.Zeta]
  /\ naiveList toLowerCase localeCompare Sample.dataset [] ByPrice
     = [Sample.Zeta; Sample.Beta; Sample.Alpha].
Proof.
  intros Hrefl Hempty [HAB HBA] [HBZ HZB] [HAZ HZA].
  assert (ByN : optimizedList toLowerCase localeCompare Sample.dataset [] ByName
                = [Sample.Alpha; Sample.Beta; Sample.Zeta]).
  { assert (E1 : (localeCompare (JsString.lit "Alpha") (JsString.lit "Beta") <=? 0) = true)
      by (apply Z.leb_le; lia).
    assert (E2 : (localeCompare (JsString.lit "Zeta") (JsString.lit "Alpha") <=? 0) = false)
      by (apply Z.leb_gt; lia).
    assert (E3 : (localeCompare (JsString.lit "Zeta") (JsString.lit "Beta") <=? 0) = false)
      by (apply Z.leb_gt; lia).
    unfold optimizedList. rewrite Hempty.
    cbn [JsString.truthy sort fold_right Sample.dataset].
    cbn [placeBefore compareItems name Sample.Zeta Sample.Alpha Sample.Beta].
    rewrite E1.
    cbn [placeBefore compareItems name Sample.Zeta Sample.Alpha Sample.Beta].
    rewrite E2.
    cbn [placeBefore compareItems name Sample.Zeta Sample.Alpha Sample.Beta].
    rewrite E3. reflexivity. }
  assert (ByP : optimizedList toLowerCase localeCompare Sample.dataset [] ByPrice
                = [Sample.Zeta; Sample.Beta; Sample.Alpha]).
  { unfold optimizedList. rewrite Hempty. reflexivity. }
  split; [| split; [| repeat split]].
  - intros items q k a b Hab. rewrite optimizedList_naiveList.
    split; apply naiveList_order; assumption.
  - intros items q k a. rewrite optimizedList_naiveList.
    apply naiveList_stable, Hrefl.
  - exact ByN.
  - rewrite ByN. reflexivity.
  - exact ByP.
  - rewrite ByP. reflexivity.
  - rewrite <- optimizedList_naiveList. exact ByN.
  - rewrite <- optimizedList_naiveList. exact ByP.
Qed.

Lemma sample_localeCompare_refl (s : js_string) : Sample.localeCompare s s = 0.
Proof.
  induction s as [|c s IH]; simpl; [reflexivity |].
  rewrite N.compare_refl. exact IH.
Qed.

Lemma sort_is_stable_witness :
  Sample.toLowerCase [] = []
  /\ precedes Sample.localeCompare (JsString.lit "Alpha") (JsString.lit "Beta")
  /\ precedes Sample.localeCompare (JsString.lit "Beta") (JsString.lit "Zeta")
  /\ precedes Sample.localeCompare (JsString.lit "Alpha") (JsString.lit "Zeta")
  /\ optimizedList Sample.toLowerCase Sample.localeCompare Sample.dataset [] ByName
     = [Sample.Alpha; Sample.Beta; Sample.Zeta].
Proof.
  assert (AB : precedes Sample.localeCompare (JsString.lit "Alpha") (JsString.lit "Beta"))
    by (split; reflexivity).
  assert (BZ : precedes Sample.localeCompare (JsString.lit "Beta") (JsString.lit "Zeta"))
    by (split; reflexivity).
  assert (AZ : precedes Sample.localeCompare (JsString.lit "Alpha") (JsString.lit "Zeta"))
    by (split; reflexivity).
  repeat (split; [assumption || reflexivity |]).
  exact (proj1 (proj2 (proj2
    (sort_is_stable Sample.toLowerCase Sample.localeCompare
       sample_localeCompare_refl eq_refl AB BZ AZ)))).
Defined.

(** ** The heap *)

Lemma alloc_spec (v : list Item) (h : heap) :
  h !! snd (alloc v h) = None /\ fst (alloc v h) = <[snd (alloc v h) := v]> h.
Proof.
  unfold alloc. simpl. split; [| reflexivity].
  apply not_elem_of_dom, is_fresh.
Qed.

Lemma deref_Some (h : heap) (r : loc) (v : list Item) :
  h !! r = Some v -> deref h r = v.
Proof. unfold deref. intros ->. reflexivity. Qed.

(** Copying an array and sorting the copy leaves every array that existed as
    it was, and yields a new array with the sorted elements. *)
Lemma spread_sort_spec (cmp : Item -> Item -> Z) (base : loc) (h : heap) :
  let '(h2, copy) := array_spread base h in
  h !! copy = None
  /\ array_sort cmp copy h2 = (<[copy := sort cmp (deref h base)]> h, copy).
Proof.
  unfold array_spread, array_sort, alloc.
  split; [apply not_elem_of_dom, is_fresh |].
  rewrite alter_insert_eq. reflexivity.
Qed.

(** ** The memoized view *)

Section EngineFacts.

Variable toLowerCase : js_string -> js_string.
Variable localeCompare : js_string -> js_string -> Z.

Local Abbreviation create := (createOptimizedList toLowerCase localeCompare).
Local Abbreviation rendered := (render toLowerCase localeCompare).
Local Abbreviation rowsOf := (optimizedList toLowerCase localeCompare).
Local Abbreviation ok := (coherent toLowerCase localeCompare).

(** The callback of [optimizedList] builds its result in a new array and
    leaves every existing array, [items] included, untouched. *)
Lemma createOptimizedList_spec (items : loc) (its : list Item) (q : js_string)
  (k : SortKey) (h : heap) :
  h !! items = Some its ->
  h !! snd (create items q k h) = None
  /\ fst (create items q k h) !! snd (create items q k h) = Some (rowsOf its q k)
  /\ h ⊆ fst (create items q k h).
Proof.
  intros Hi. unfold createOptimizedList, optimizedList. cbv zeta.
  destruct (JsString.truthy (toLowerCase q)).
  - unfold array_filter.
    pose proof (alloc_spec (List.filter (matches toLowerCase (toLowerCase q)) (deref h items)) h)
      as [F1 F2].
    destruct (alloc _ h) as [h1 base]. simpl in F1, F2. subst h1.
    pose proof (spread_sort_spec (compareItems localeCompare k) base
                  (<[base := List.filter (matches toLowerCase (toLowerCase q)) (deref h items)]> h))
      as S.
    destruct (array_spread base _) as [h2 copy]. destruct S as [S1 S2].
    rewrite S2. simpl. split; [| split].
    + eapply lookup_weaken_None; [exact S1 | apply insert_subseteq, F1].
    + rewrite lookup_insert_eq. unfold deref at 1. rewrite lookup_insert_eq. simpl.
      rewrite (deref_Some h items its Hi). reflexivity.
    + transitivity (<[base := List.filter (matches toLowerCase (toLowerCase q)) (deref h items)]> h);
        apply insert_subseteq; assumption.
  - pose proof (spread_sort_spec (compareItems localeCompare k) items h) as S.
    destruct (array_spread items h) as [h2 copy]. destruct S as [S1 S2].
    rewrite S2. simpl. split; [exact S1 | split].
    + rewrite lookup_insert_eq, (deref_Some h items its Hi). reflexivity.
    + apply insert_subseteq, S1.
Qed.

(** A render whose dependencies are the stored ones changes nothing. *)
Lemma render_hit (e : Engine) (items : loc) (q : js_string) (k : SortKey)
  (rows : loc) (t : Z) :
  listCell e = Some ((items, q, k), rows) -> totalCell e = Some (rows, t) ->
  rendered items q k e = (e, (rows, t)).
Proof.
  intros HL HT. unfold render, useMemo. rewrite HL, HT.
  rewrite !decide_True by reflexivity. destruct e; simpl in *. subst. reflexivity.
Qed.

(** A render whose list dependencies differ from the stored ones, or the
    first render, runs both callbacks once. *)
Lemma render_miss (e : Engine) (items : loc) (q : js_string) (k : SortKey) :
  (forall rows, listCell e <> Some ((items, q, k), rows)) ->
  (forall t, totalCell e <> Some (snd (create items q k (objects e)), t)) ->
  rendered items q k e =
  (let h' := fst (create items q k (objects e)) in
   let rows := snd (create items q k (objects e)) in
   ({| objects := h';
       listCell := Some ((items, q, k), rows);
       totalCell := Some (rows, total (deref h' rows));
       listRuns := S (listRuns e);
       totalRuns := S (totalRuns e) |},
    (rows, total (deref h' rows)))).
Proof.
  intros HL HT. unfold render, useMemo, createTotal, array_total.
  destruct (create items q k (objects e)) as [h' rows] eqn:C. simpl in HT |- *.
  assert (T : match totalCell e with
              | Some (prev, value) =>
                  if decide (prev = rows) then (h', totalCell e, value, false)
                  else (h', Some (rows, total (deref h' rows)), total (deref h' rows), true)
              | None => (h', Some (rows, total (deref h' rows)), total (deref h' rows), true)
              end = (h', Some (rows, total (deref h' rows)), total (deref h' rows), true)).
  { destruct (totalCell e) as [[prev value]|] eqn:E; [| reflexivity].
    destruct (decide (prev = rows)) as [-> | _]; [| reflexivity].
    exfalso. exact (HT value eq_refl). }
  destruct (listCell e) as [[prevDeps value]|] eqn:E.
  - destruct (decide (prevDeps = (items, q, k))) as [-> | _].
    + exfalso. exact (HL value eq_refl).
    + rewrite T. reflexivity.
  - rewrite T. reflexivity.
Qed.

Lemma coherent_mount (h : heap) : ok (mount h).
Proof. exact I. Qed.

(** What one render does, from a coherent state: either nothing (both cells
    hit), or both callbacks run once and the rows are a new array. *)
Lemma render_cases (e : Engine) (items : loc) (its : list Item) (q : js_string)
  (k : SortKey) :
  ok e -> objects e !! items = Some its ->
  (exists rows t,
      listCell e = Some ((items, q, k), rows) /\ totalCell e = Some (rows, t)
      /\ objects e !! rows = Some (rowsOf its q k) /\ t = total (rowsOf its q k)
      /\ rendered items q k e = (e, (rows, t)))
  \/ (exists h' rows,
      create items q k (objects e) = (h', rows)
      /\ (forall r, listCell e <> Some ((items, q, k), r))
      /\ objects e !! rows = None
      /\ h' !! rows = Some (rowsOf its q k)
      /\ objects e ⊆ h'
      /\ rendered items q k e =
         ({| objects := h';
             listCell := Some ((items, q, k), rows);
             totalCell := Some (rows, total (rowsOf its q k));
             listRuns := S (listRuns e);
             totalRuns := S (totalRuns e) |},
          (rows, total (rowsOf its q k)))).
Proof.
  intros Hok Hi.
  pose proof (createOptimizedList_spec items its q k (objects e) Hi) as (C1 & C2 & C3).
  assert (Miss : (forall r, listCell e <> Some ((items, q, k), r)) ->
                 (forall t, totalCell e <> Some (snd (create items q k (objects e)), t)) ->
                 exists h' rows,
                   create items q k (objects e) = (h', rows)
                   /\ (forall r, listCell e <> Some ((items, q, k), r))
                   /\ objects e !! rows = None
                   /\ h' !! rows = Some (rowsOf its q k)
                   /\ objects e ⊆ h'
                   /\ rendered items q k e =
                      ({| objects := h';
                          listCell := Some ((items, q, k), rows);
                          totalCell := Some (rows, total (rowsOf its q k));
                          listRuns := S (listRuns e);
                          totalRuns := S (totalRuns e) |},
                       (rows, total (rowsOf its q k)))).
  { intros HL HT. rewrite (render_miss e items q k HL HT).
    destruct (create items q k (objects e)) as [h' rows]. simpl in *.
    exists h', rows. rewrite (deref_Some h' rows _ C2). auto 10. }
  unfold coherent in Hok.
  destruct (listCell e) as [[[[i0 q0] k0] r0]|] eqn:EL;
    destruct (totalCell e) as [[r1 t1]|] eqn:ET; try contradiction.
  - destruct Hok as (-> & Hlive & Hrows & Ht).
    destruct (decide ((i0, q0, k0) = (items, q, k))) as [Heq | Hne].
    + injection Heq as -> -> ->. left. exists r0, t1.
      rewrite (deref_Some _ _ _ Hi) in Hrows.
      rewrite (deref_Some _ _ _ Hrows) in Ht.
      repeat split; try assumption. apply render_hit; assumption.
    + right. apply Miss.
      * intros r [= E1 E2 E3 _]. apply Hne. congruence.
      * intros t [= E _]. rewrite <- E in C1. rewrite Hrows in C1. discriminate C1.
  - right. apply Miss; intros ?; discriminate.
Qed.

End EngineFacts.

Section EngineInvariant.

Variable toLowerCase : js_string -> js_string.
Variable localeCompare : js_string -> js_string -> Z.

Local Abbreviation rendered := (render toLowerCase localeCompare).
Local Abbreviation rowsOf := (optimizedList toLowerCase localeCompare).
Local Abbreviation ok := (coherent toLowerCase localeCompare).

Lemma render_coherent (e : Engine) (items : loc) (q : js_string) (k : SortKey) :
  ok e -> is_Some (objects e !! items) -> ok (fst (rendered items q k e)).
Proof.
  intros Hok [its Hi].
  destruct (render_cases toLowerCase localeCompare e items its q k Hok Hi)
    as [(rows & t & _ & _ & _ & _ & R) | (h' & rows & _ & _ & F & L & Sub & R)];
    rewrite R; simpl; [exact Hok |].
  unfold coherent. simpl.
  pose proof (lookup_weaken _ _ _ _ Hi Sub) as Hi'.
  rewrite (deref_Some _ _ _ Hi'), (deref_Some _ _ _ L).
  repeat split; eauto.
Qed.

Lemma reachable_coherent (e : Engine) :
  reachable toLowerCase localeCompare e -> ok e.
Proof.
  induction 1 as [h | e items q k _ IH Hlive].
  - apply coherent_mount.
  - apply render_coherent; assumption.
Qed.

(** After a render, whatever the state before, the cells hold the
    dependencies of that render and the values it returned. *)
Lemma render_cells (e : Engine) (items : loc) (q : js_string) (k : SortKey) :
  listCell (fst (rendered items q k e))
  = Some ((items, q, k), fst (snd (rendered items q k e)))
  /\ totalCell (fst (rendered items q k e)) = Some (snd (rendered items q k e)).
Proof.
  unfold render, useMemo, createTotal.
  destruct (listCell e) as [[d v]|];
    [destruct (decide (d = (items, q, k))) as [-> | _] |];
    try destruct (createOptimizedList _ _ _ _ _ _) as [h' r];
    (destruct (totalCell e) as [[d' v']|];
     [destruct (decide (d' = _)) as [-> | _] |]); simpl; auto.
Qed.

(** The naive view on a heap: a new array with the naive rows, and their
    total; the arrays that existed are as they were. *)
Lemma naiveView_spec (items : loc) (its : list Item) (q : js_string) (k : SortKey)
  (h : heap) :
  h !! items = Some its ->
  exists h' rows,
    naiveView toLowerCase localeCompare items q k h
    = (h', (rows, total (naiveList toLowerCase localeCompare its q k)))
    /\ h !! rows = None
    /\ h' !! rows = Some (naiveList toLowerCase localeCompare its q k)
    /\ h ⊆ h'.
Proof.
  intros Hi. unfold naiveView, array_filter, array_sort, array_total.
  pose proof (alloc_spec (List.filter (matches toLowerCase (toLowerCase q)) (deref h items)) h)
    as [F1 F2].
  destruct (alloc _ h) as [h1 filtered]. simpl in F1, F2. subst h1.
  rewrite alter_insert_eq, (deref_Some _ _ _ Hi).
  eexists _, filtered. split; [| split; [exact F1 | split]].
  - unfold deref at 1. rewrite lookup_insert_eq. reflexivity.
  - rewrite lookup_insert_eq. reflexivity.
  - apply insert_subseteq, F1.
Qed.

End EngineInvariant.

(** ** Naive and optimized *)

(** C1. For every item sequence, filter text and sort key, the naive inline
    computation and the optimized memoized computation give the same ordered
    rows and the same total: in every state the optimized component can
    reach, a render returns an array whose elements are the rows the naive
    expression yields on the same items, and the two totals are equal. The
    callbacks themselves compute the same sequence. *)
Theorem naive_and_optimized_agree
  (toLowerCase : js_string -> js_string)
  (localeCompare : js_string -> js_string -> Z)
  (e : Engine) (items : loc) (h : heap) (naiveItems : loc)
  (its : list Item) (search : js_string) (sortBy : SortKey) :
  reachable toLowerCase localeCompare e ->
  objects e !! items = Some its ->
  h !! naiveItems = Some its ->
  exists e' rows total' h' naiveRows naiveTotal,
    render toLowerCase localeCompare items search sortBy e = (e', (rows, total'))
    /\ naiveView toLowerCase localeCompare naiveItems search sortBy h
       = (h', (naiveRows, naiveTotal))
    /\ deref (objects e') rows = deref h' naiveRows
    /\ total' = naiveTotal
    /\ objects e' !! rows
       = Some (naiveList toLowerCase localeCompare its search sortBy)
    /\ naiveTotal = total (naiveList toLowerCase localeCompare its search sortBy)
    /\ optimizedList toLowerCase localeCompare its search sortBy
       = naiveList toLowerCase localeCompare its search sortBy.
Proof.
  intros Hreach Hi Hn.
  apply reachable_coherent in Hreach.
  destruct (naiveView_spec toLowerCase localeCompare naiveItems its search sortBy h Hn)
    as (h' & naiveRows & N & _ & NL & _).
  pose proof (optimizedList_naiveList toLowerCase localeCompare its search sortBy) as E.
  destruct (render_cases toLowerCase localeCompare e items its search sortBy Hreach Hi)
    as [(rows & t & _ & _ & L & T & R) | (h2 & rows & _ & _ & _ & L & _ & R)].
  - exists e, rows, t, h', naiveRows, (total (naiveList toLowerCase localeCompare its search sortBy)).
    rewrite E in L, T.
    rewrite (deref_Some _ _ _ L), (deref_Some _ _ _ NL). auto 10.
  - eexists _, rows, _, h', naiveRows, _.
    split; [exact R |]. split; [exact N |]. simpl.
    rewrite E in L |- *.
    rewrite (deref_Some _ _ _ L), (deref_Some _ _ _ NL). auto 10.
Qed.

Lemma naive_and_optimized_agree_witness :
  exists e' rows total' h' naiveRows naiveTotal,
    render Sample.toLowerCase Sample.localeCompare 1%positive (JsString.lit "e") ByPrice
      (mount {[ 1%positive := Sample.dataset ]}) = (e', (rows, total'))
    /\ naiveView Sample.toLowerCase Sample.localeCompare 1%positive (JsString.lit "e")
         ByPrice {[ 1%positive := Sample.dataset ]} = (h', (naiveRows, naiveTotal))
    /\ deref (objects e') rows = deref h' naiveRows
    /\ total' = naiveTotal
    /\ objects e' !! rows
       = Some (naiveList Sample.toLowerCase Sample.localeCompare Sample.dataset
                 (JsString.lit "e") ByPrice)
    /\ naiveTotal
       = total (naiveList Sample.toLowerCase Sample.localeCompare Sample.dataset
                  (JsString.lit "e") ByPrice)
    /\ optimizedList Sample.toLowerCase Sample.localeCompare Sample.dataset
         (JsString.lit "e") ByPrice
       = naiveList Sample.toLowerCase Sample.localeCompare Sample.dataset
           (JsString.lit "e") ByPrice.
Proof.
  apply (naive_and_optimized_agree Sample.toLowerCase Sample.localeCompare
           (mount {[ 1%positive := Sample.dataset ]}) 1%positive
           {[ 1%positive := Sample.dataset ]} 1%positive Sample.dataset
           (JsString.lit "e") ByPrice).
  - apply reachable_mount.
  - reflexivity.
  - reflexivity.
Defined.

(** The scenario of the witness, evaluated: filter "e" keeps Zeta and Beta,
    by price they stay in that order, total 20. *)
Example naive_and_optimized_on_sample :
  naiveList Sample.toLowerCase Sample.localeCompare Sample.dataset
    (JsString.lit "e") ByPrice = [Sample.Zeta; Sample.Beta]
  /\ snd (render Sample.toLowerCase Sample.localeCompare 1%positive (JsString.lit "e")
            ByPrice (mount {[ 1%positive := Sample.dataset ]}))
     = (3%positive, 20).
Proof. split; vm_compute; reflexivity. Qed.

(** ** Memoization *)

(** C4. If [items] (the same array), the filter text and the sort key are
    those of the previous render, the render returns the previous rows (the
    same array) and the previous total, and leaves the whole state as it
    was: the heap (no array is created), both cells, and both run counters.
    Counted from the mount, the callbacks have run exactly once after the
    first render and still exactly once after any number of renders with the
    same inputs. *)
Theorem unchanged_inputs_reuse_the_result
  (toLowerCase : js_string -> js_string)
  (localeCompare : js_string -> js_string -> Z)
  (e : Engine) (items : loc) (q : js_string) (k : SortKey) :
  let first := render toLowerCase localeCompare items q k e in
  let again := render toLowerCase localeCompare items q k (fst first) in
  snd again = snd first
  /\ fst again = fst first
  /\ listRuns (fst again) = listRuns (fst first)
  /\ totalRuns (fst again) = totalRuns (fst first)
  /\ (forall h n,
        let e1 := fst (render toLowerCase localeCompare items q k (mount h)) in
        let en := Nat.iter n
                    (fun x => fst (render toLowerCase localeCompare items q k x)) e1 in
        listRuns e1 = 1%nat /\ totalRuns e1 = 1%nat
        /\ listRuns en = 1%nat /\ totalRuns en = 1%nat
        /\ snd (render toLowerCase localeCompare items q k en)
           = snd (render toLowerCase localeCompare items q k (mount h))).
Proof.
  assert (Again : forall x,
            render toLowerCase localeCompare items q k
              (fst (render toLowerCase localeCompare items q k x))
            = render toLowerCase localeCompare items q k x).
  { intros x.
    destruct (render_cells toLowerCase localeCompare x items q k) as [HL HT].
    destruct (render toLowerCase localeCompare items q k x) as [x' [rows t]].
    simpl in *. apply render_hit; assumption. }
  cbv zeta. rewrite Again.
  do 4 (split; [reflexivity |]).
  intros h n.
  assert (Iter : Nat.iter n
                   (fun x => fst (render toLowerCase localeCompare items q k x))
                   (fst (render toLowerCase localeCompare items q k (mount h)))
                 = fst (render toLowerCase localeCompare items q k (mount h))).
  { induction n as [|n IH]; simpl; [reflexivity |]. rewrite IH, Again. reflexivity. }
  rewrite Iter, Again.
  assert (Runs : listRuns (fst (render toLowerCase localeCompare items q k (mount h))) = 1%nat
                 /\ totalRuns (fst (render toLowerCase localeCompare items q k (mount h))) = 1%nat).
  { unfold render, useMemo, createTotal, mount. simpl.
    destruct (createOptimizedList _ _ _ _ _ _). split; reflexivity. }
  destruct Runs as [R1 R2]. auto.
Qed.

(** ** Prices of the generated items *)

Lemma rand_range (r : Q) :
  (0 <= r)%Q -> (r < 1)%Q -> 5 <= rand 5 500 r <= 500.
Proof.
  intros H0 H1. unfold rand, round.
  change (Double.add 500 (Z.opp 5)) with 495.
  assert (Small : forall x, (x < inject_Z 501)%Q -> (x < inject_Z (2 ^ 53))%Q).
  { intros x Hx. apply (Qlt_trans _ _ _ Hx). rewrite <- Zlt_Qlt. reflexivity. }
  assert (A0 : (0 <= r * inject_Z 495)%Q) by (unfold inject_Z; lra).
  assert (A1 : (r * inject_Z 495 <= inject_Z 495)%Q) by (unfold inject_Z; lra).
  destruct (round_bounds (r * inject_Z 495) 495 A0) as [U _];
    [apply Small; unfold inject_Z in *; lra |].
  destruct (round_bounds (r * inject_Z 495) 0 A0) as [_ L];
    [apply Small; unfold inject_Z in *; lra |].
  specialize (U A1). specialize (L A0).
  set (p := Double.round (r * inject_Z 495)) in *.
  assert (B0 : (0 <= p + inject_Z 5)%Q) by (unfold inject_Z in *; lra).
  destruct (round_bounds (p + inject_Z 5) 500 B0) as [U2 _];
    [apply Small; unfold inject_Z in *; lra |].
  destruct (round_bounds (p + inject_Z 5) 5 B0) as [_ L2];
    [apply Small; unfold inject_Z in *; lra |].
  assert (U3 : (Double.round (p + inject_Z 5) <= inject_Z 500)%Q)
    by (apply U2; unfold inject_Z in *; lra).
  assert (L3 : (inject_Z 5 <= Double.round (p + inject_Z 5))%Q)
    by (apply L2; unfold inject_Z in *; lra).
  set (y := Double.round (p + inject_Z 5)) in *.
  split.
  - apply Z.le_trans with (Qfloor (inject_Z 5)); [rewrite Qfloor_Z; lia |].
    apply Qfloor_resp_le. unfold inject_Z in *. lra.
  - assert (Qfloor (y + (1 # 2)) < 501); [| lia].
    rewrite Zlt_Qlt. eapply Qle_lt_trans; [apply Qfloor_le |]. unfold inject_Z in *. lra.
Qed.

Lemma createItems_inv (random : nat -> Q) (toString36 : Q -> js_string)
  (n : Z) (items : list Item) :
  createItems random toString36 n = Returned items ->
  exists m, items = List.map (createItem random toString36) (seq 0 m).
Proof.
  unfold createItems. cbv zeta.
  destruct (toLength n <=? 2 ^ 32 - 1); [| discriminate].
  intros [= <-]. eexists. reflexivity.
Qed.

Lemma createItems_length (random : nat -> Q) (toString36 : Q -> js_string)
  (n : Z) (items : list Item) :
  createItems random toString36 n = Returned items ->
  Z.of_nat (length items) <= 2 ^ 32 - 1.
Proof.
  unfold createItems. cbv zeta.
  destruct (Z.leb_spec (toLength n) (2 ^ 32 - 1)) as [Hle | _]; [| discriminate].
  intros [= <-]. rewrite length_map, length_seq.
  unfold toLength in *. lia.
Qed.

Lemma sumOfPrices_bounds (lo hi : Z) (rows : list Item) :
  Forall (fun it => lo <= price it <= hi) rows ->
  lo * Z.of_nat (length rows) <= sumOfPrices rows <= hi * Z.of_nat (length rows).
Proof.
  unfold sumOfPrices. induction 1 as [|it rows Hit _ IH]; simpl length; simpl; lia.
Qed.

(** The generated prices are in the range in which every sum of them is
    exact: at most 2^32 - 1 prices of at most 500 each. *)
Lemma createItems_exactPrices (random : nat -> Q) (toString36 : Q -> js_string)
  (n : Z) (items : list Item) :
  (forall i, (0 <= random i)%Q /\ (random i < 1)%Q) ->
  createItems random toString36 n = Returned items ->
  exactPrices items.
Proof.
  intros Hrandom Hc. pose proof (createItems_length _ _ _ _ Hc) as Hlen.
  apply createItems_inv in Hc as [m ->].
  assert (B : List.Forall (fun it => 5 <= price it <= 500)
                (List.map (createItem random toString36) (seq 0 m))).
  { apply List.Forall_forall. intros it Hin.
    apply in_map_iff in Hin as (i & <- & _).
    cbn [price createItem]. apply rand_range; apply Hrandom. }
  split.
  - eapply List.Forall_impl; [| exact B]. intros it Hit. cbv beta in Hit. lia.
  - pose proof (sumOfPrices_bounds 5 500 _ B) as [_ Hs].
    change (2 ^ 32 - 1) with 4294967295 in Hlen.
    change (2 ^ 53) with 9007199254740992. lia.
Qed.

(** ** The aggregate *)


Lemma exactPrices_dataset : exactPrices Sample.dataset.
Proof.
  split; [| vm_compute; discriminate].
  repeat constructor; vm_compute; discriminate.
Qed.



(** ** The favourite set *)

Lemma members_insert (h : Favorites.set_heap) (r : loc) (m : gset Z) :
  Favorites.members (<[r := m]> h) r = m.
Proof. unfold Favorites.members. rewrite lookup_insert_eq. reflexivity. Qed.

(** C7. For every favourite set and every id, toggling yields a set object
    that did not exist before (so it is not the previous one), leaves the
    previous set and every other existing set with the members it had,
    flips the membership of the toggled id and keeps the membership of every
    other id. The naive and the optimized toggle are this same function. *)
Theorem toggle_makes_a_new_set_and_flips_one_id
  (h : Favorites.set_heap) (prev : loc) (s : gset Z) (x : Z) :
  h !! prev = Some s ->
  exists h' next,
    Favorites.toggle prev x h = (h', next)
    /\ h !! next = None
    /\ next <> prev
    /\ h' !! prev = Some s
    /\ (forall r, is_Some (h !! r) -> h' !! r = h !! r)
    /\ Favorites.has h' next x = negb (Favorites.has h prev x)
    /\ (forall y, y <> x -> Favorites.has h' next y = Favorites.has h prev y)
    /\ Favorites.naiveToggle prev x h = (h', next)
    /\ Favorites.optToggle x prev h = (h', next).
Proof.
  intros Hp.
  unfold Favorites.naiveToggle, Favorites.optToggle, Favorites.toggle,
    Favorites.set_copy, Favorites.set_delete, Favorites.set_add.
  assert (Hfresh : h !! fresh (dom h) = None) by (apply not_elem_of_dom, is_fresh).
  generalize dependent (fresh (dom h)). intros next Hfresh.
  assert (Hne : next <> prev) by (intros E; rewrite E, Hp in Hfresh; discriminate).
  assert (Hm : Favorites.members h prev = s)
    by (unfold Favorites.members; rewrite Hp; reflexivity).
  assert (Hm1 : Favorites.has (<[next := Favorites.members h prev]> h) next x
                = bool_decide (x ∈ s)).
  { unfold Favorites.has. rewrite members_insert, Hm. reflexivity. }
  rewrite Hm1, !alter_insert_eq, Hm.
  assert (Hold : forall m r, is_Some (h !! r) -> <[next := m]> h !! r = h !! r).
  { intros m r [v Hr]. apply lookup_insert_ne. intros E. rewrite <- E, Hfresh in Hr.
    discriminate. }
  assert (Hhas : forall m y, Favorites.has (<[next := m]> h) next y = bool_decide (y ∈ m)).
  { intros m y. unfold Favorites.has. rewrite members_insert. reflexivity. }
  assert (Hprev : forall y, Favorites.has h prev y = bool_decide (y ∈ s)).
  { intros y. unfold Favorites.has. rewrite Hm. reflexivity. }
  destruct (bool_decide (x ∈ s)) eqn:Hx.
  - apply bool_decide_eq_true in Hx.
    exists (<[next := s ∖ {[x]}]> h), next.
    split; [reflexivity |]. split; [exact Hfresh |]. split; [exact Hne |].
    split; [rewrite lookup_insert_ne by exact Hne; exact Hp |].
    split; [apply Hold |].
    split; [| split; [| split; reflexivity]].
    + rewrite Hhas, Hprev.
      rewrite bool_decide_eq_false_2
        by (rewrite elem_of_difference, elem_of_singleton; tauto).
      rewrite bool_decide_eq_true_2 by exact Hx. reflexivity.
    + intros y Hy. rewrite Hhas, Hprev. apply bool_decide_ext.
      rewrite elem_of_difference, elem_of_singleton. tauto.
  - apply bool_decide_eq_false in Hx.
    exists (<[next := s ∪ {[x]}]> h), next.
    split; [reflexivity |]. split; [exact Hfresh |]. split; [exact Hne |].
    split; [rewrite lookup_insert_ne by exact Hne; exact Hp |].
    split; [apply Hold |].
    split; [| split; [| split; reflexivity]].
    + rewrite Hhas, Hprev.
      rewrite bool_decide_eq_true_2
        by (rewrite elem_of_union, elem_of_singleton; tauto).
      rewrite bool_decide_eq_false_2 by exact Hx. reflexivity.
    + intros y Hy. rewrite Hhas, Hprev. apply bool_decide_ext.
      rewrite elem_of_union, elem_of_singleton. tauto.
Qed.

Lemma toggle_makes_a_new_set_and_flips_one_id_witness :
  exists h' next,
    Favorites.toggle 1%positive 7 {[ 1%positive := ({[ 3; 7 ]} : gset Z) ]} = (h', next)
    /\ ({[ 1%positive := ({[ 3; 7 ]} : gset Z) ]} : Favorites.set_heap) !! next = None
    /\ next <> 1%positive
    /\ h' !! 1%positive = Some ({[ 3; 7 ]} : gset Z)
    /\ (forall r, is_Some (({[ 1%positive := ({[ 3; 7 ]} : gset Z) ]}
                             : Favorites.set_heap) !! r) ->
                  h' !! r = ({[ 1%positive := ({[ 3; 7 ]} : gset Z) ]}
                             : Favorites.set_heap) !! r)
    /\ Favorites.has h' next 7
       = negb (Favorites.has {[ 1%positive := ({[ 3; 7 ]} : gset Z) ]} 1%positive 7)
    /\ (forall y, y <> 7 ->
          Favorites.has h' next y
          = Favorites.has {[ 1%positive := ({[ 3; 7 ]} : gset Z) ]} 1%positive y)
    /\ Favorites.naiveToggle 1%positive 7 {[ 1%positive := ({[ 3; 7 ]} : gset Z) ]}
       = (h', next)
    /\ Favorites.optToggle 7 1%positive {[ 1%positive := ({[ 3; 7 ]} : gset Z) ]}
       = (h', next).
Proof.
  apply (toggle_makes_a_new_set_and_flips_one_id
           {[ 1%positive := ({[ 3; 7 ]} : gset Z) ]} 1%positive {[ 3; 7 ]} 7).
  apply lookup_singleton_eq.
Defined.

(** ** The row calculation *)

(** Repeated addition is exact while every partial sum is a double that
    holds an integer exactly. *)
Lemma addRepeatedly_spec (n : nat) (acc price : Z) :
  - 2 ^ 53 <= acc <= 2 ^ 53 ->
  - 2 ^ 53 <= acc + Z.of_nat n * price <= 2 ^ 53 ->
  addRepeatedly n acc price = acc + Z.of_nat n * price.
Proof.
  revert acc. induction n as [|n IH]; intros acc Ha Hs.
  - simpl. lia.
  - cbn [addRepeatedly].
    assert (Hstep : - 2 ^ 53 <= acc + price <= 2 ^ 53).
    { destruct (Z.le_gt_cases 0 price) as [Hp | Hp].
      - assert (0 <= Z.of_nat n * price) by nia. lia.
      - assert (Z.of_nat n * price <= 0) by nia. lia. }
    rewrite add_exact by exact Hstep. rewrite IH; lia.
Qed.

(** The [reduce] of the naive row and the loop of the optimized row add
    alike. *)
Lemma reduce_add_spec (n : nat) (acc price : Z) :
  fold_left (fun a (_ : unit) => Double.add a price) (repeat tt n) acc
  = addRepeatedly n acc price.
Proof.
  revert acc. induction n as [|n IH]; intros acc.
  - reflexivity.
  - cbn [repeat fold_left addRepeatedly]. apply IH.
Qed.

Lemma fakeCalc_spec (price : Z) :
  - 2 ^ 53 <= 500 * price <= 2 ^ 53 -> fakeCalc price = Z.rem (500 * price) 7.
Proof.
  intros H. unfold fakeCalc. rewrite addRepeatedly_spec; [f_equal | lia | lia].
Qed.

Lemma NaiveRow_fakeCalc (item : Item) (isFavorite : bool) :
  shown_calc (NaiveRow item isFavorite) = fakeCalc (price item).
Proof.
  unfold NaiveRow, fakeCalc. cbn [shown_calc]. rewrite reduce_add_spec. reflexivity.
Qed.

Lemma NaiveRow_calc (item : Item) (isFavorite : bool) :
  - 2 ^ 53 <= 500 * price item <= 2 ^ 53 ->
  shown_calc (NaiveRow item isFavorite) = Z.rem (500 * price item) 7.
Proof.
  intros H. rewrite NaiveRow_fakeCalc. apply fakeCalc_spec, H.
Qed.

Lemma OptimizedRow_valid (cell : option (Z * Z)) (item : Item) (isFavorite : bool) :
  validCell cell ->
  validCell (fst (OptimizedRow cell item isFavorite))
  /\ shown_calc (snd (OptimizedRow cell item isFavorite)) = fakeCalc (price item).
Proof.
  unfold OptimizedRow, useMemo. destruct cell as [[p v]|]; simpl.
  - destruct (decide (p = price item)) as [-> | _]; simpl; auto.
  - auto.
Qed.

Lemma rowCell_valid (history : list (Item * bool)) : validCell (rowCell history).
Proof.
  unfold rowCell.
  assert (G : forall cell, validCell cell ->
            validCell (fold_left (fun c p => fst (OptimizedRow c (fst p) (snd p)))
                         history cell)).
  { induction history as [|[it fav] history IH]; intros cell Hc; simpl; [exact Hc |].
    apply IH. apply OptimizedRow_valid, Hc. }
  apply G. exact I.
Qed.




(** ** The row renderer *)

(** C10. For every rows array of length R, the lookup of the row renderer
    succeeds at every index with 0 <= index < R: it finds the item at that
    position and returns its props; outside that range, and only there, the
    lookup yields [undefined] and the renderer throws. *)
Theorem row_lookup_succeeds_in_range
  (index : Z) (data : ItemData) (h : heap) (sets : Favorites.set_heap)
  (rows : list Item) :
  h !! data_list data = Some rows ->
  0 <= index < Z.of_nat (length rows) ->
  (exists item,
      array_get rows index = Some item
      /\ nth_error rows (Z.to_nat index) = Some item
      /\ RowRenderer index data h sets
         = Some (item, Favorites.has sets (data_favorites data) (id item)))
  /\ (forall other, ~ (0 <= other < Z.of_nat (length rows)) ->
        RowRenderer other data h sets = None).
Proof.
  intros Hrows Hrange. unfold RowRenderer. rewrite (deref_Some _ _ _ Hrows).
  unfold array_get. split.
  - destruct (Z.ltb_spec index 0) as [Hneg | _]; [lia |].
    destruct (nth_error rows (Z.to_nat index)) as [item|] eqn:E.
    + exists item. auto.
    + apply nth_error_None in E. lia.
  - intros other Hout. destruct (Z.ltb_spec other 0) as [_ | Hnn]; [reflexivity |].
    destruct (nth_error rows (Z.to_nat other)) as [item|] eqn:E; [| reflexivity].
    assert (Z.to_nat other < length rows)%nat by (apply nth_error_Some; congruence).
    lia.
Qed.

Lemma row_lookup_succeeds_in_range_witness :
  (exists item,
      array_get Sample.dataset 2 = Some item
      /\ nth_error Sample.dataset (Z.to_nat 2) = Some item
      /\ RowRenderer 2 {| data_list := 1%positive; data_favorites := 1%positive |}
           {[ 1%positive := Sample.dataset ]} ∅
         = Some (item, Favorites.has ∅ 1%positive (id item)))
  /\ (forall other, ~ (0 <= other < Z.of_nat (length Sample.dataset)) ->
        RowRenderer other {| data_list := 1%positive; data_favorites := 1%positive |}
          {[ 1%positive := Sample.dataset ]} ∅ = None).
Proof.
  apply (row_lookup_succeeds_in_range 2
           {| data_list := 1%positive; data_favorites := 1%positive |}
           {[ 1%positive := Sample.dataset ]} ∅ Sample.dataset).
  - apply lookup_singleton_eq.
  - simpl. lia.
Defined.

(** ** The visible window *)

Lemma visible_rows_upper (rowHeight viewportHeight scrollOffset : Z) :
  0 < rowHeight -> 0 <= viewportHeight ->
  scrollOffset / rowHeight
  <= (scrollOffset + viewportHeight + rowHeight - 1) / rowHeight
  <= scrollOffset / rowHeight + viewportHeight / rowHeight + 2.
Proof.
  intros Hh HH. split.
  - apply Z.div_le_mono; lia.
  - pose proof (Z.mul_succ_div_gt scrollOffset rowHeight Hh) as H1.
    pose proof (Z.mul_succ_div_gt viewportHeight rowHeight Hh) as H2.
    assert ((scrollOffset + viewportHeight + rowHeight - 1) / rowHeight
            < scrollOffset / rowHeight + viewportHeight / rowHeight + 3); [| lia].
    apply Z.div_lt_upper_bound; [exact Hh |]. nia.
Qed.

Lemma visible_rows_lower (rowHeight viewportHeight scrollOffset : Z) :
  0 < rowHeight -> 0 <= viewportHeight ->
  scrollOffset / rowHeight + (viewportHeight + rowHeight - 1) / rowHeight
  <= (scrollOffset + viewportHeight + rowHeight - 1) / rowHeight.
Proof.
  intros Hh HH.
  pose proof (Z.mul_div_le scrollOffset rowHeight Hh) as H1.
  pose proof (Z.mul_div_le (viewportHeight + rowHeight - 1) rowHeight Hh) as H2.
  apply Z.div_le_lower_bound; [exact Hh | nia].
Qed.

(** C5. For every row count R and every scroll offset, in the content or
    not, the window is clamped to [0, R] and its size is at most
    viewportHeight / rowHeight + 2 rows plus the overscan on both sides, a
    bound in which R does not occur; an offset outside the content gives the
    window of the nearest offset inside. With viewport height 320 and row
    height 44 the window holds at most 9 + 2 * overscan rows whatever the
    row count, and at least 8 at every scroll offset once the rows fill the
    viewport (10,000 rows included). *)
Theorem window_is_clamped_and_bounded
  (R rowHeight viewportHeight scrollOffset : Z) (overscan : N) :
  0 < rowHeight -> 0 <= viewportHeight -> 0 <= R ->
  0 <= fst (visibleWindow R rowHeight viewportHeight scrollOffset overscan)
  /\ fst (visibleWindow R rowHeight viewportHeight scrollOffset overscan)
     <= snd (visibleWindow R rowHeight viewportHeight scrollOffset overscan)
  /\ snd (visibleWindow R rowHeight viewportHeight scrollOffset overscan) <= R
  /\ windowSize (visibleWindow R rowHeight viewportHeight scrollOffset overscan)
     <= viewportHeight / rowHeight + 2 + 2 * Z.of_N overscan
  /\ (scrollOffset <= 0 ->
      visibleWindow R rowHeight viewportHeight scrollOffset overscan
      = visibleWindow R rowHeight viewportHeight 0 overscan)
  /\ (Z.max 0 (R * rowHeight - viewportHeight) <= scrollOffset ->
      visibleWindow R rowHeight viewportHeight scrollOffset overscan
      = visibleWindow R rowHeight viewportHeight
          (Z.max 0 (R * rowHeight - viewportHeight)) overscan)
  /\ windowSize (visibleWindow R 44 320 scrollOffset overscan)
     <= 9 + 2 * Z.of_N overscan
  /\ (320 <= R * 44 ->
      8 <= windowSize (visibleWindow R 44 320 scrollOffset overscan))
  /\ 8 <= windowSize (visibleWindow 10000 44 320 scrollOffset overscan)
       <= 9 + 2 * Z.of_N overscan.
Proof.
  intros Hh HH HR.
  assert (Size : forall n off, 0 <= n ->
            (320 <= n * 44 -> 0 <= off <= n * 44 - 320) ->
            windowSize (clamp 0 n (off / 44 - Z.of_N overscan),
                        clamp 0 n ((off + 320 + 44 - 1) / 44 + Z.of_N overscan))
            <= 9 + 2 * Z.of_N overscan
            /\ (320 <= n * 44 ->
                8 <= windowSize
                       (clamp 0 n (off / 44 - Z.of_N overscan),
                        clamp 0 n ((off + 320 + 44 - 1) / 44 + Z.of_N overscan)))).
  { intros n off Hn Hoff.
    pose proof (visible_rows_upper 44 320 off eq_refl ltac:(lia)) as [V1 V2].
    pose proof (visible_rows_lower 44 320 off eq_refl ltac:(lia)) as V3.
    change (320 / 44) with 7 in V2. change ((320 + 44 - 1) / 44) with 8 in V3.
    unfold windowSize, clamp. cbn [fst snd]. split; [lia |].
    intros Hfill. specialize (Hoff Hfill).
    assert (0 <= off / 44) by (apply Z.div_pos; lia).
    assert ((off + 320 + 44 - 1) / 44 < n + 1)
      by (apply Z.div_lt_upper_bound; lia).
    lia. }
  split; [| split; [| split; [| split; [| split; [| split; [| split; [| split]]]]]]].
  - unfold visibleWindow, clamp. cbn [fst]. lia.
  - pose proof (visible_rows_upper rowHeight viewportHeight
                  (clamp 0 (Z.max 0 (R * rowHeight - viewportHeight)) scrollOffset)
                  Hh HH) as [U1 _].
    unfold visibleWindow. cbv zeta. cbn [fst snd]. unfold clamp at 1 3. lia.
  - unfold visibleWindow, clamp. cbn [snd]. lia.
  - pose proof (visible_rows_upper rowHeight viewportHeight
                  (clamp 0 (Z.max 0 (R * rowHeight - viewportHeight)) scrollOffset)
                  Hh HH) as [U1 U2].
    unfold windowSize, visibleWindow. cbv zeta. cbn [fst snd].
    unfold clamp at 1 3. lia.
  - intros Hneg. unfold visibleWindow. cbv zeta.
    replace (clamp 0 (Z.max 0 (R * rowHeight - viewportHeight)) scrollOffset)
      with (clamp 0 (Z.max 0 (R * rowHeight - viewportHeight)) 0)
      by (unfold clamp; lia).
    reflexivity.
  - intros Hpast. unfold visibleWindow. cbv zeta.
    replace (clamp 0 (Z.max 0 (R * rowHeight - viewportHeight)) scrollOffset)
      with (clamp 0 (Z.max 0 (R * rowHeight - viewportHeight))
              (Z.max 0 (R * rowHeight - viewportHeight)))
      by (unfold clamp; lia).
    reflexivity.
  - unfold visibleWindow. cbv zeta. apply Size; [exact HR |].
    intros Hfill. unfold clamp. lia.
  - unfold visibleWindow. cbv zeta. apply Size; [exact HR |].
    intros Hfill. unfold clamp. lia.
  - unfold visibleWindow. cbv zeta.
    destruct (Size 10000 (clamp 0 (Z.max 0 (10000 * 44 - 320)) scrollOffset))
      as [S1 S2]; [lia | intros _; unfold clamp; lia |].
    split; [apply S2; lia | exact S1].
Qed.

Lemma window_is_clamped_and_bounded_witness :
  0 < 44 /\ 0 <= 320 /\ 0 <= 10000
  /\ visibleWindow 10000 44 320 439680 1 = (9991, 10000)
  /\ visibleWindow 10000 44 320 (-5) 1 = (0, 9)
  /\ visibleWindow 10000 44 320 999999 1 = (9991, 10000)
  /\ windowSize (visibleWindow 10000 44 320 439680 1) <= 320 / 44 + 2 + 2 * Z.of_N 1.
Proof.
  repeat (split; [lia || reflexivity |]).
  exact (proj1 (proj2 (proj2 (proj2
    (window_is_clamped_and_bounded 10000 44 320 439680 1
       eq_refl ltac:(discriminate) ltac:(discriminate)))))).
Defined.

(** C5 as stated fails with an overscan of one row or more: the window of
    10,000 rows then holds more than 10 rows. At offset 4435 the rows 100 to
    108 are visible, which makes 11 rows with an overscan of 1 and 13 with
    an overscan of 2. *)
Lemma window_of_more_than_10_rows :
  visibleWindow 10000 44 320 4435 0 = (100, 109)
  /\ visibleWindow 10000 44 320 4435 1 = (99, 110)
  /\ visibleWindow 10000 44 320 4435 2 = (98, 111)
  /\ windowSize (visibleWindow 10000 44 320 4435 1) = 11
  /\ windowSize (visibleWindow 10000 44 320 4435 2) = 13
  /\ ~ (8 <= windowSize (visibleWindow 10000 44 320 4435 2) <= 10).
Proof.
  vm_compute. repeat split; try reflexivity. intros [_ H]. apply H. reflexivity.
Qed.

(** ** The item store *)

Lemma nth_error_map_seq {A : Type} (f : nat -> A) (m a i : nat) :
  nth_error (List.map f (seq a m)) i
  = if (i <? m)%nat then Some (f (a + i)%nat) else None.
Proof.
  revert a i. induction m as [|m IH]; intros a i.
  - destruct i; reflexivity.
  - destruct i as [|i]; simpl.
    + rewrite Nat.add_0_r. reflexivity.
    + rewrite IH. replace (S a + i)%nat with (a + S i)%nat by lia.
      reflexivity.
Qed.

Section ItemStoreFacts.

Variable random : nat -> Q.
Variable toString36 : Q -> js_string.

(** Below the array length limit [createItems] returns, and its result is
    the mapping function applied to the indices [0 .. max(n, 0) - 1]. *)
Lemma createItems_returns (n : Z) :
  n <= 2 ^ 32 - 1 ->
  createItems random toString36 n
  = Returned (List.map (createItem random toString36) (seq 0 (Z.to_nat (Z.max n 0)))).
Proof.
  intros Hn. unfold createItems, toLength. cbv zeta.
  assert (E : Z.min (Z.max n 0) (2 ^ 53 - 1) = Z.max n 0) by lia.
  rewrite E. destruct (Z.leb_spec (Z.max n 0) (2 ^ 32 - 1)); [reflexivity | lia].
Qed.

Lemma createItems_ids (m : nat) :
  List.map id (List.map (createItem random toString36) (seq 0 m))
  = List.map Z.of_nat (seq 1 m).
Proof.
  rewrite List.map_map, <- seq_shift, List.map_map.
  apply List.map_ext. intros i. simpl. lia.
Qed.

End ItemStoreFacts.

(** C9, as the code has it. For every integer n up to the array length
    limit 2^32 - 1, with [Math.random] drawing from [0, 1), [createItems]
    returns exactly max(n, 0) items, whose ids are 1, 2, ... in order (hence
    unique), whose prices are integers between 5 and 500, and whose category
    is the entry of the four-element category list at the index mod 4; for
    n <= 0 the result is the empty sequence. *)
Theorem createItems_below_the_length_limit
  (random : nat -> Q) (toString36 : Q -> js_string) (n : Z) :
  (forall k, (0 <= random k)%Q /\ (random k < 1)%Q) ->
  n <= 2 ^ 32 - 1 ->
  exists items,
    createItems random toString36 n = Returned items
    /\ Z.of_nat (length items) = Z.max n 0
    /\ List.map id items = List.map Z.of_nat (seq 1 (length items))
    /\ List.NoDup (List.map id items)
    /\ Forall (fun it => 5 <= price it <= 500) items
    /\ length CATEGORIES = 4%nat
    /\ (forall i it, nth_error items i = Some it ->
          nth_error CATEGORIES (i mod 4) = Some (category it))
    /\ (n <= 0 -> items = []).
Proof.
  intros Hrandom Hn.
  exists (List.map (createItem random toString36) (seq 0 (Z.to_nat (Z.max n 0)))).
  assert (L : length (List.map (createItem random toString36)
                        (seq 0 (Z.to_nat (Z.max n 0))))
              = Z.to_nat (Z.max n 0))
    by (rewrite length_map, length_seq; reflexivity).
  rewrite L, createItems_ids.
  split; [apply createItems_returns, Hn |].
  split; [lia |].
  split; [reflexivity |].
  split; [apply Injective_map_NoDup;
          [intros a b; apply Nat2Z.inj | apply seq_NoDup] |].
  split; [| split; [reflexivity | split]].
  - apply List.Forall_forall. intros it Hin. apply in_map_iff in Hin as (i & <- & _).
    cbn [price createItem]. apply rand_range; apply Hrandom.
  - intros i it Hi. rewrite nth_error_map_seq in Hi.
    destruct (i <? Z.to_nat (Z.max n 0))%nat; [| discriminate Hi].
    injection Hi as <-. cbn [category createItem plus].
    change (length CATEGORIES) with 4%nat.
    apply nth_error_nth'. change (length CATEGORIES) with 4%nat.
    apply Nat.mod_upper_bound. discriminate.
  - intros Hle. replace (Z.max n 0) with 0 by lia. reflexivity.
Qed.

Lemma sample_random_range (k : nat) :
  (0 <= Sample.random k)%Q /\ (Sample.random k < 1)%Q.
Proof.
  assert (B : 0 <= Sample.lcg k < 65536).
  { destruct k; simpl; [lia |]. apply Z.mod_pos_bound. lia. }
  unfold Sample.random, Qle, Qlt. simpl. lia.
Qed.

Lemma createItems_below_the_length_limit_witness :
  3 <= 2 ^ 32 - 1
  /\ exists items,
      createItems Sample.random Sample.toString36 3 = Returned items
      /\ Z.of_nat (length items) = Z.max 3 0
      /\ List.map id items = List.map Z.of_nat (seq 1 (length items))
      /\ List.NoDup (List.map id items)
      /\ Forall (fun it => 5 <= price it <= 500) items
      /\ length CATEGORIES = 4%nat
      /\ (forall i it, nth_error items i = Some it ->
            nth_error CATEGORIES (i mod 4) = Some (category it))
      /\ (3 <= 0 -> items = []).
Proof.
  split; [discriminate |].
  apply (createItems_below_the_length_limit Sample.random Sample.toString36 3
           sample_random_range).
  discriminate.
Defined.

(** C9 as stated fails above the limit: for n = 2^32, [Array.from] throws
    instead of returning max(n, 0) items. *)
Lemma createItems_above_the_length_limit :
  createItems Sample.random Sample.toString36 (2 ^ 32) = RangeError
  /\ Z.max (2 ^ 32) 0 = 4294967296.
Proof. split; reflexivity. Qed.

(** What the sample store holds for n = 3, and for a negative count. *)
Example createItems_sample :
  (match createItems Sample.random Sample.toString36 3 with
   | Returned items => List.map (fun it => (id it, price it, category it)) items
   | RangeError => []
   end)
  = [ (1, 26, JsString.lit "Hardware"); (2, 165, JsString.lit "Software");
      (3, 210, JsString.lit "Books") ]
  /\ createItems Sample.random Sample.toString36 (-4) = Returned [].
Proof. split; vm_compute; reflexivity. Qed.

(** A draw at which the rounding of the doubles shows: the product of
    77334539055857 / 2^52 and 495 is rounded up to 8.5, the sum is 13.5 and
    [Math.round] gives 14, where the unrounded sum is below 13.5. *)
Example rand_rounds_as_doubles_do :
  Double.round ((77334539055857 # 4503599627370496) * inject_Z 495) == 17 # 2
  /\ rand 5 500 (77334539055857 # 4503599627370496) = 14
  /\ round ((77334539055857 # 4503599627370496) * inject_Z 495 + inject_Z 5) = 13.
Proof. split; [| split]; vm_compute; reflexivity. Qed.

(** * Further properties of the components *)

(** ** Order, count and total of the rows *)

Lemma StronglySorted_weaken {A : Type} (R R' : A -> A -> Prop) (l : list A) :
  (forall a b, R a b -> R' a b) -> StronglySorted R l -> StronglySorted R' l.
Proof.
  intros HR. induction 1 as [|x l _ IH Hall]; constructor; [exact IH |].
  eapply List.Forall_impl; [| exact Hall]. intros b. apply HR.
Qed.

Lemma includes_trans (s p' p : js_string) :
  JsString.includes s p' = true -> JsString.includes p' p = true ->
  JsString.includes s p = true.
Proof.
  rewrite !includes_spec. intros (a & b & ->) (c & d & ->).
  exists (a ++ c), (d ++ b). rewrite <- !app_assoc. reflexivity.
Qed.

Lemma filter_filter_implied {A : Type} (f g : A -> bool) (l : list A) :
  (forall x, f x = true -> g x = true) ->
  List.filter f (List.filter g l) = List.filter f l.
Proof.
  intros Hfg. induction l as [|x l IH]; simpl; [reflexivity |].
  destruct (g x) eqn:Hg; simpl.
  - rewrite IH. reflexivity.
  - destruct (f x) eqn:Hf; [| exact IH].
    rewrite (Hfg x Hf) in Hg. discriminate Hg.
Qed.

Lemma filter_length_le {A : Type} (f : A -> bool) (l : list A) :
  (length (List.filter f l) <= length l)%nat.
Proof.
  induction l as [|x l IH]; simpl; [lia |]. destruct (f x); simpl; lia.
Qed.

Lemma NoDup_map_filter {A B : Type} (key : A -> B) (f : A -> bool) (l : list A) :
  List.NoDup (List.map key l) -> List.NoDup (List.map key (List.filter f l)).
Proof.
  induction l as [|x l IH]; simpl; intros Hnd; [constructor |].
  apply List.NoDup_cons_iff in Hnd as [Hx Hnd].
  destruct (f x); simpl; [| apply IH, Hnd].
  apply List.NoDup_cons_iff. split; [| apply IH, Hnd].
  intros Hin. apply Hx. apply in_map_iff in Hin as (y & Hy & Hin).
  apply in_map_iff. exists y. split; [exact Hy |].
  apply List.filter_In in Hin. tauto.
Qed.

(** X1. Sorted by price, the rows are in non-decreasing order of price, for
    every filter text; no assumption on the host is needed. *)
Theorem rows_ascend_by_price
  (toLowerCase : js_string -> js_string)
  (localeCompare : js_string -> js_string -> Z)
  (items : list Item) (q : js_string) :
  StronglySorted (fun a b => price a <= price b)
    (optimizedList toLowerCase localeCompare items q ByPrice)
  /\ StronglySorted (fun a b => price a <= price b)
       (naiveList toLowerCase localeCompare items q ByPrice).
Proof.
  assert (S : forall l, StronglySorted (fun a b => price a <= price b)
                          (sort (compareItems localeCompare ByPrice) l)).
  { intros l.
    apply (StronglySorted_weaken
             (fun a b => compareItems localeCompare ByPrice a b <= 0)).
    - intros a b. cbn [compareItems]. apply sub_le.
    - apply sort_sorted; cbn [compareItems]; intros;
        rewrite ?sub_le, ?sub_gt in *; lia. }
  split; apply S.
Qed.

(** X2. Sorted by name, the rows are in the order of the host's collation,
    provided [localeCompare] is a consistent comparator (transitive, and
    never greater in both directions). *)
Theorem rows_ascend_by_name
  (toLowerCase : js_string -> js_string)
  (localeCompare : js_string -> js_string -> Z)
  (items : list Item) (q : js_string) :
  (forall a b, 0 < localeCompare a b -> localeCompare b a <= 0) ->
  (forall a b c, localeCompare a b <= 0 -> localeCompare b c <= 0 ->
                 localeCompare a c <= 0) ->
  StronglySorted (fun a b => localeCompare (name a) (name b) <= 0)
    (optimizedList toLowerCase localeCompare items q ByName)
  /\ StronglySorted (fun a b => localeCompare (name a) (name b) <= 0)
       (naiveList toLowerCase localeCompare items q ByName).
Proof.
  intros Htotal Htrans.
  assert (S : forall l, StronglySorted (fun a b => localeCompare (name a) (name b) <= 0)
                          (sort (compareItems localeCompare ByName) l)).
  { intros l. apply (sort_sorted (compareItems localeCompare ByName)).
    - intros a b. apply Htotal.
    - intros a b c. apply Htrans. }
  split; apply S.
Qed.

Lemma sample_localeCompare_total (a b : js_string) :
  0 < Sample.localeCompare a b -> Sample.localeCompare b a <= 0.
Proof.
  revert b. induction a as [|c a IH]; intros [|d b]; simpl; try lia.
  rewrite (N.compare_antisym c d).
  destruct (c ?= d)%N; simpl; [apply IH | lia | lia].
Qed.

Lemma sample_localeCompare_trans (a b c : js_string) :
  Sample.localeCompare a b <= 0 -> Sample.localeCompare b c <= 0 ->
  Sample.localeCompare a c <= 0.
Proof.
  revert b c. induction a as [|x a IH]; intros [|y b] [|z c]; simpl; try lia.
  destruct (N.compare_spec x y) as [-> | Hxy | Hxy]; try lia.
  - destruct (N.compare_spec y z) as [-> | Hyz | Hyz]; try lia. apply IH.
  - intros _. destruct (N.compare_spec y z) as [-> | Hyz | Hyz]; try lia.
    + intros _. destruct (N.compare_spec x z); lia.
    + intros _. destruct (N.compare_spec x z); lia.
Qed.

Lemma rows_ascend_by_name_witness :
  StronglySorted
    (fun a b => Sample.localeCompare (name a) (name b) <= 0)
    (optimizedList Sample.toLowerCase Sample.localeCompare Sample.dataset [] ByName).
Proof.
  exact (proj1 (rows_ascend_by_name Sample.toLowerCase Sample.localeCompare
                  Sample.dataset [] sample_localeCompare_total
                  sample_localeCompare_trans)).
Defined.

(** X3. Changing the sort key only reorders the rows: for the same items and
    filter text the rows under the two keys are rearrangements of each other,
    so the count shown does not change; and when no price of the items is
    negative and the prices together are at most 2^53 (the sums are then
    exact in every order) the total shown does not change either. *)
Theorem sort_key_only_reorders
  (toLowerCase : js_string -> js_string)
  (localeCompare : js_string -> js_string -> Z)
  (items : list Item) (q : js_string) (k k' : SortKey) :
  Permutation (optimizedList toLowerCase localeCompare items q k)
              (optimizedList toLowerCase localeCompare items q k')
  /\ length (optimizedList toLowerCase localeCompare items q k)
     = length (optimizedList toLowerCase localeCompare items q k')
  /\ (exactPrices items ->
      total (optimizedList toLowerCase localeCompare items q k)
      = total (optimizedList toLowerCase localeCompare items q k')
      /\ total (naiveList toLowerCase localeCompare items q k)
         = total (naiveList toLowerCase localeCompare items q k')).
Proof.
  assert (P : Permutation (naiveList toLowerCase localeCompare items q k)
                          (naiveList toLowerCase localeCompare items q k')).
  { rewrite !naiveList_perm. reflexivity. }
  rewrite !optimizedList_naiveList.
  split; [exact P |]. split; [apply Permutation_length, P |].
  intros Hexact.
  rewrite !total_sum by (apply exactPrices_naiveList, Hexact).
  split; apply sumOfPrices_perm, P.
Qed.

Lemma sort_key_only_reorders_witness :
  exactPrices Sample.dataset
  /\ total (optimizedList Sample.toLowerCase Sample.localeCompare Sample.dataset
              [] ByName)
     = total (optimizedList Sample.toLowerCase Sample.localeCompare Sample.dataset
                [] ByPrice).
Proof.
  split; [exact exactPrices_dataset |].
  exact (proj1 (proj2 (proj2
           (sort_key_only_reorders Sample.toLowerCase Sample.localeCompare
              Sample.dataset [] ByName ByPrice)) exactPrices_dataset)).
Defined.

(** Beyond 2^53 the order of the additions shows: the prices 2^53, 1 and 1
    give 2^53 in this order (by name) and 2^53 + 2 in ascending order (by
    price). *)
Example total_depends_on_the_order_beyond_2_53 :
  let items :=
    [ {| id := 1; name := JsString.lit "a"; price := 2 ^ 53;
         category := JsString.lit "Books" |};
      {| id := 2; name := JsString.lit "b"; price := 1;
         category := JsString.lit "Books" |};
      {| id := 3; name := JsString.lit "c"; price := 1;
         category := JsString.lit "Books" |} ] in
  total (optimizedList Sample.toLowerCase Sample.localeCompare items [] ByName)
  = 2 ^ 53
  /\ total (optimizedList Sample.toLowerCase Sample.localeCompare items [] ByPrice)
     = 2 ^ 53 + 2.
Proof. vm_compute. split; reflexivity. Qed.

(** X4. A filter text whose lower-case form contains the lower-case form of
    another one selects among the rows of that other one: its filtered
    sequence is the filter applied to the other filtered sequence, so
    narrowing the text never adds a row. *)
Theorem narrower_text_selects_among_the_rows
  (toLowerCase : js_string -> js_string)
  (localeCompare : js_string -> js_string -> Z)
  (items : list Item) (q q' : js_string) (k : SortKey) :
  JsString.includes (toLowerCase q') (toLowerCase q) = true ->
  filteredItems toLowerCase items q'
  = List.filter (matches toLowerCase (toLowerCase q')) (filteredItems toLowerCase items q)
  /\ (forall it, In it (optimizedList toLowerCase localeCompare items q' k) ->
                 In it (optimizedList toLowerCase localeCompare items q k))
  /\ (length (optimizedList toLowerCase localeCompare items q' k)
      <= length (optimizedList toLowerCase localeCompare items q k))%nat.
Proof.
  intros Hq.
  assert (E : filteredItems toLowerCase items q'
              = List.filter (matches toLowerCase (toLowerCase q'))
                  (filteredItems toLowerCase items q)).
  { unfold filteredItems. symmetry. apply filter_filter_implied.
    intros it Hit. unfold matches in *. exact (includes_trans _ _ _ Hit Hq). }
  split; [exact E |]. rewrite !optimizedList_naiveList. split.
  - intros it Hin.
    apply (Permutation_in _ (naiveList_perm toLowerCase localeCompare items q' k)) in Hin.
    rewrite E in Hin. apply List.filter_In in Hin as [Hin _].
    apply (Permutation_in _ (Permutation_sym
                               (naiveList_perm toLowerCase localeCompare items q k))).
    exact Hin.
  - rewrite (Permutation_length (naiveList_perm toLowerCase localeCompare items q' k)).
    rewrite (Permutation_length (naiveList_perm toLowerCase localeCompare items q k)).
    rewrite E. apply filter_length_le.
Qed.

Lemma narrower_text_selects_among_the_rows_witness :
  JsString.includes (Sample.toLowerCase (JsString.lit "ET"))
    (Sample.toLowerCase (JsString.lit "e")) = true
  /\ filteredItems Sample.toLowerCase Sample.dataset (JsString.lit "ET")
     = List.filter (matches Sample.toLowerCase (Sample.toLowerCase (JsString.lit "ET")))
         (filteredItems Sample.toLowerCase Sample.dataset (JsString.lit "e")).
Proof.
  split; [reflexivity |].
  exact (proj1 (narrower_text_selects_among_the_rows Sample.toLowerCase
                  Sample.localeCompare Sample.dataset (JsString.lit "e")
                  (JsString.lit "ET") ByName eq_refl)).
Defined.

(** ** Rows of the generated items *)

Lemma rows_from_items
  (toLowerCase : js_string -> js_string)
  (localeCompare : js_string -> js_string -> Z)
  (items : list Item) (q : js_string) (k : SortKey) (it : Item) :
  In it (naiveList toLowerCase localeCompare items q k) -> In it items.
Proof.
  intros Hin.
  apply (Permutation_in _ (naiveList_perm toLowerCase localeCompare items q k)) in Hin.
  unfold filteredItems in Hin. apply List.filter_In in Hin. tauto.
Qed.

(** X5. The rows are rendered with [key={item.id}]. For the items the store
    generates, the keys of the rows are pairwise distinct, whatever the
    filter text and the sort key. *)
Theorem row_keys_are_distinct
  (random : nat -> Q) (toString36 : Q -> js_string)
  (toLowerCase : js_string -> js_string)
  (localeCompare : js_string -> js_string -> Z)
  (n : Z) (items : list Item) (q : js_string) (k : SortKey) :
  createItems random toString36 n = Returned items ->
  List.NoDup (List.map id (naiveList toLowerCase localeCompare items q k))
  /\ List.NoDup (List.map id (optimizedList toLowerCase localeCompare items q k)).
Proof.
  intros Hc. apply createItems_inv in Hc as [m ->].
  rewrite optimizedList_naiveList.
  assert (N : List.NoDup
                (List.map id (naiveList toLowerCase localeCompare
                                (List.map (createItem random toString36) (seq 0 m)) q k))).
  { eapply Permutation_NoDup.
    - apply Permutation_sym, Permutation_map, naiveList_perm.
    - unfold filteredItems. apply NoDup_map_filter.
      rewrite createItems_ids.
      apply Injective_map_NoDup; [intros a b; apply Nat2Z.inj | apply seq_NoDup]. }
  split; exact N.
Qed.

Lemma row_keys_are_distinct_witness :
  createItems Sample.random Sample.toString36 3
  = Returned (List.map (createItem Sample.random Sample.toString36) (seq 0 3))
  /\ List.NoDup
       (List.map id
          (naiveList Sample.toLowerCase Sample.localeCompare
             (List.map (createItem Sample.random Sample.toString36) (seq 0 3))
             (JsString.lit "product") ByPrice)).
Proof.
  split; [reflexivity |].
  exact (proj1 (row_keys_are_distinct Sample.random Sample.toString36
                  Sample.toLowerCase Sample.localeCompare 3 _
                  (JsString.lit "product") ByPrice eq_refl)).
Defined.

(** X6. For the items the store generates (draws in [0, 1)), the total shown is
    between 5 and 500 times the count shown, whatever the filter text and
    the sort key. *)
Theorem total_between_5_and_500_per_row
  (random : nat -> Q) (toString36 : Q -> js_string)
  (toLowerCase : js_string -> js_string)
  (localeCompare : js_string -> js_string -> Z)
  (n : Z) (items : list Item) (q : js_string) (k : SortKey) :
  (forall i, (0 <= random i)%Q /\ (random i < 1)%Q) ->
  createItems random toString36 n = Returned items ->
  5 * Z.of_nat (length (optimizedList toLowerCase localeCompare items q k))
  <= total (optimizedList toLowerCase localeCompare items q k)
  <= 500 * Z.of_nat (length (optimizedList toLowerCase localeCompare items q k))
  /\ 5 * Z.of_nat (length (naiveList toLowerCase localeCompare items q k))
     <= total (naiveList toLowerCase localeCompare items q k)
     <= 500 * Z.of_nat (length (naiveList toLowerCase localeCompare items q k)).
Proof.
  intros Hrandom Hc.
  pose proof (createItems_exactPrices _ _ _ _ Hrandom Hc) as Hexact.
  apply createItems_inv in Hc as [m ->].
  rewrite optimizedList_naiveList.
  rewrite total_sum by (apply exactPrices_naiveList, Hexact).
  assert (B : Forall (fun it => 5 <= price it <= 500)
                (naiveList toLowerCase localeCompare
                   (List.map (createItem random toString36) (seq 0 m)) q k)).
  { apply List.Forall_forall. intros it Hin. apply rows_from_items in Hin.
    apply in_map_iff in Hin as (i & <- & _).
    cbn [price createItem]. apply rand_range; apply Hrandom. }
  split; apply sumOfPrices_bounds, B.
Qed.

Lemma total_between_5_and_500_per_row_witness :
  createItems Sample.random Sample.toString36 3
  = Returned (List.map (createItem Sample.random Sample.toString36) (seq 0 3))
  /\ 5 * Z.of_nat (length (optimizedList Sample.toLowerCase Sample.localeCompare
                             (List.map (createItem Sample.random Sample.toString36)
                                (seq 0 3)) [] ByName))
     <= total (optimizedList Sample.toLowerCase Sample.localeCompare
                 (List.map (createItem Sample.random Sample.toString36) (seq 0 3))
                 [] ByName)
     <= 500 * Z.of_nat (length (optimizedList Sample.toLowerCase Sample.localeCompare
                                  (List.map (createItem Sample.random Sample.toString36)
                                     (seq 0 3)) [] ByName)).
Proof.
  split; [reflexivity |].
  exact (proj1 (total_between_5_and_500_per_row Sample.random Sample.toString36
                  Sample.toLowerCase Sample.localeCompare 3 _ [] ByName
                  sample_random_range eq_refl)).
Defined.

(** ** Arrays across renders *)

(** The rows array a cell holds is not the [items] array it was built from. *)
Definition rowsApartFromItems (e : Engine) : Prop :=
  match listCell e with
  | Some ((items, _, _), rows) => rows <> items
  | None => True
  end.

Lemma reachable_rowsApartFromItems
  (toLowerCase : js_string -> js_string)
  (localeCompare : js_string -> js_string -> Z) (e : Engine) :
  reachable toLowerCase localeCompare e -> rowsApartFromItems e.
Proof.
  induction 1 as [h | e items q k Hreach IH [its Hi]]; [exact I |].
  destruct (render_cases toLowerCase localeCompare e items its q k
              (reachable_coherent _ _ _ Hreach) Hi)
    as [(rows & t & _ & _ & _ & _ & R) | (h' & rows & _ & _ & F & _ & _ & R)];
    rewrite R; simpl; [exact IH |].
  unfold rowsApartFromItems. simpl. intros ->. rewrite Hi in F. discriminate F.
Qed.

(** X7. A render of the optimized component never changes an array that exists:
    [items] keeps its elements and their order (the sort works on a copy),
    every other array too, and the rows it returns are never the [items]
    array itself. *)
Theorem render_leaves_existing_arrays_alone
  (toLowerCase : js_string -> js_string)
  (localeCompare : js_string -> js_string -> Z)
  (e : Engine) (items : loc) (its : list Item) (q : js_string) (k : SortKey) :
  reachable toLowerCase localeCompare e ->
  objects e !! items = Some its ->
  exists e' rows t,
    render toLowerCase localeCompare items q k e = (e', (rows, t))
    /\ rows <> items
    /\ objects e' !! items = Some its
    /\ (forall r v, objects e !! r = Some v -> objects e' !! r = Some v).
Proof.
  intros Hreach Hi.
  pose proof (reachable_rowsApartFromItems _ _ _ Hreach) as Hapart.
  destruct (render_cases toLowerCase localeCompare e items its q k
              (reachable_coherent _ _ _ Hreach) Hi)
    as [(rows & t & HL & _ & _ & _ & R) | (h' & rows & _ & _ & F & _ & Sub & R)].
  - exists e, rows, t. unfold rowsApartFromItems in Hapart. rewrite HL in Hapart.
    auto.
  - eexists _, rows, _. split; [exact R |]. simpl. split; [| split].
    + intros ->. rewrite Hi in F. discriminate F.
    + exact (lookup_weaken _ _ _ _ Hi Sub).
    + intros r v Hr. exact (lookup_weaken _ _ _ _ Hr Sub).
Qed.

Lemma render_leaves_existing_arrays_alone_witness :
  exists e' rows t,
    render Sample.toLowerCase Sample.localeCompare 1%positive [] ByPrice
      (mount {[ 1%positive := Sample.dataset ]}) = (e', (rows, t))
    /\ rows <> 1%positive
    /\ objects e' !! 1%positive = Some Sample.dataset
    /\ (forall r v,
          objects (mount {[ 1%positive := Sample.dataset ]}) !! r = Some v ->
          objects e' !! r = Some v).
Proof.
  apply (render_leaves_existing_arrays_alone Sample.toLowerCase Sample.localeCompare
           (mount {[ 1%positive := Sample.dataset ]}) 1%positive Sample.dataset
           [] ByPrice).
  - apply reachable_mount.
  - reflexivity.
Defined.

(** X8. When a dependency differs from the stored one (another [items] array,
    another filter text or another sort key), both callbacks run once more
    and the rows are a new array, different from the previous one, which
    keeps its elements. *)
Theorem changed_input_builds_new_rows
  (toLowerCase : js_string -> js_string)
  (localeCompare : js_string -> js_string -> Z)
  (e : Engine) (items : loc) (its : list Item) (q : js_string) (k : SortKey)
  (previousDeps : loc * js_string * SortKey) (previousRows : loc) :
  reachable toLowerCase localeCompare e ->
  objects e !! items = Some its ->
  listCell e = Some (previousDeps, previousRows) ->
  previousDeps <> (items, q, k) ->
  exists e' rows t,
    render toLowerCase localeCompare items q k e = (e', (rows, t))
    /\ rows <> previousRows
    /\ objects e !! rows = None
    /\ objects e' !! rows = Some (optimizedList toLowerCase localeCompare its q k)
    /\ objects e' !! previousRows = objects e !! previousRows
    /\ is_Some (objects e !! previousRows)
    /\ listRuns e' = S (listRuns e)
    /\ totalRuns e' = S (totalRuns e).
Proof.
  intros Hreach Hi HL Hne.
  pose proof (reachable_coherent _ _ _ Hreach) as Hok.
  assert (Hprev : is_Some (objects e !! previousRows)).
  { unfold coherent in Hok. rewrite HL in Hok.
    destruct previousDeps as [[i0 q0] k0].
    destruct (totalCell e) as [[r1 t1]|]; [| contradiction].
    destruct Hok as (_ & _ & Hrows & _). eauto. }
  destruct (render_cases toLowerCase localeCompare e items its q k Hok Hi)
    as [(rows & t & HL' & _) | (h' & rows & _ & _ & F & L & Sub & R)].
  - rewrite HL in HL'. injection HL' as E _. contradiction.
  - eexists _, rows, _. split; [exact R |]. simpl.
    destruct Hprev as [v Hv].
    split; [intros ->; rewrite Hv in F; discriminate F |].
    split; [exact F |]. split; [exact L |].
    split; [rewrite Hv; exact (lookup_weaken _ _ _ _ Hv Sub) |].
    split; [eauto |]. split; reflexivity.
Qed.

Lemma changed_input_builds_new_rows_witness :
  exists e' rows t,
    render Sample.toLowerCase Sample.localeCompare 1%positive [] ByPrice
      (fst (render Sample.toLowerCase Sample.localeCompare 1%positive [] ByName
              (mount {[ 1%positive := Sample.dataset ]})))
    = (e', (rows, t))
    /\ rows <> 2%positive
    /\ t = 70.
Proof.
  destruct (changed_input_builds_new_rows Sample.toLowerCase Sample.localeCompare
              (fst (render Sample.toLowerCase Sample.localeCompare 1%positive [] ByName
                      (mount {[ 1%positive := Sample.dataset ]})))
              1%positive Sample.dataset [] ByPrice
              (1%positive, [], ByName) 2%positive)
    as (e' & rows & t & R & Hne & _ & Hrows & _).
  - apply reachable_render; [apply reachable_mount | eexists; reflexivity].
  - reflexivity.
  - reflexivity.
  - intros [=].
  - exists e', rows, t. split; [exact R |]. split; [exact Hne |].
    vm_compute in R. injection R as _ _ <-. reflexivity.
Defined.

(** X9. The naive component never reuses a result: two renders with the same
    inputs build two different arrays with the same elements and the same
    total, neither of them the [items] array, which keeps its elements. *)
Theorem naive_render_builds_a_new_array_each_time
  (toLowerCase : js_string -> js_string)
  (localeCompare : js_string -> js_string -> Z)
  (items : loc) (its : list Item) (q : js_string) (k : SortKey) (h : heap) :
  h !! items = Some its ->
  exists h1 rows1 t1 h2 rows2 t2,
    naiveView toLowerCase localeCompare items q k h = (h1, (rows1, t1))
    /\ naiveView toLowerCase localeCompare items q k h1 = (h2, (rows2, t2))
    /\ rows1 <> rows2 /\ rows1 <> items /\ rows2 <> items
    /\ h2 !! rows1 = h2 !! rows2
    /\ t1 = t2
    /\ h2 !! items = Some its.
Proof.
  intros Hi.
  destruct (naiveView_spec toLowerCase localeCompare items its q k h Hi)
    as (h1 & rows1 & N1 & F1 & L1 & Sub1).
  pose proof (lookup_weaken _ _ _ _ Hi Sub1) as Hi1.
  destruct (naiveView_spec toLowerCase localeCompare items its q k h1 Hi1)
    as (h2 & rows2 & N2 & F2 & L2 & Sub2).
  eexists h1, rows1, _, h2, rows2, _.
  split; [exact N1 |]. split; [exact N2 |].
  split; [intros E; rewrite <- E, L1 in F2; discriminate F2 |].
  split; [intros E; rewrite E, Hi in F1; discriminate F1 |].
  split; [intros E; rewrite E, Hi1 in F2; discriminate F2 |].
  split; [rewrite L2; exact (lookup_weaken _ _ _ _ L1 Sub2) |].
  split; [reflexivity | exact (lookup_weaken _ _ _ _ Hi1 Sub2)].
Qed.

Lemma naive_render_builds_a_new_array_each_time_witness :
  exists h1 rows1 t1 h2 rows2 t2,
    naiveView Sample.toLowerCase Sample.localeCompare 1%positive [] ByName
      {[ 1%positive := Sample.dataset ]} = (h1, (rows1, t1))
    /\ naiveView Sample.toLowerCase Sample.localeCompare 1%positive [] ByName h1
       = (h2, (rows2, t2))
    /\ rows1 <> rows2 /\ rows1 <> 1%positive /\ rows2 <> 1%positive
    /\ h2 !! rows1 = h2 !! rows2
    /\ t1 = t2
    /\ h2 !! 1%positive = Some Sample.dataset.
Proof.
  apply (naive_render_builds_a_new_array_each_time Sample.toLowerCase
           Sample.localeCompare 1%positive Sample.dataset [] ByName
           {[ 1%positive := Sample.dataset ]}).
  reflexivity.
Defined.

(** ** Toggles composed *)

(** The members after a toggle: in the old set or the toggled id, not both. *)
Definition flipped (s : gset Z) (x : Z) : gset Z :=
  if bool_decide (x ∈ s) then s ∖ {[x]} else s ∪ {[x]}.

Lemma elem_of_flipped (s : gset Z) (x y : Z) :
  y ∈ flipped s x <-> (y ∈ s /\ y <> x) \/ ((y ∉ s) /\ y = x).
Proof.
  unfold flipped. destruct (bool_decide (x ∈ s)) eqn:Hx.
  - apply bool_decide_eq_true in Hx.
    rewrite elem_of_difference, elem_of_singleton. split.
    + intros [? ?]. left. auto.
    + intros [[? ?] | [Hn ->]]; [auto | contradiction].
  - apply bool_decide_eq_false in Hx.
    rewrite elem_of_union, elem_of_singleton. split.
    + intros [Hy | ->]; [left; split; [exact Hy | intros ->; contradiction] | right; auto].
    + intros [[? ?] | [_ ->]]; auto.
Qed.

Lemma toggle_eq (prev : loc) (x : Z) (h : Favorites.set_heap) :
  Favorites.toggle prev x h
  = (<[fresh (dom h) := flipped (Favorites.members h prev) x]> h, fresh (dom h)).
Proof.
  unfold Favorites.toggle, Favorites.set_copy, Favorites.set_delete,
    Favorites.set_add, Favorites.has, flipped.
  rewrite members_insert.
  destruct (bool_decide (x ∈ Favorites.members h prev));
    rewrite alter_insert_eq; reflexivity.
Qed.

Lemma toggle_members (prev : loc) (x : Z) (h : Favorites.set_heap) :
  Favorites.members (fst (Favorites.toggle prev x h)) (snd (Favorites.toggle prev x h))
  = flipped (Favorites.members h prev) x.
Proof. rewrite toggle_eq. simpl. apply members_insert. Qed.

Lemma toggle_fresh (prev : loc) (x : Z) (h : Favorites.set_heap) :
  h !! snd (Favorites.toggle prev x h) = None.
Proof. rewrite toggle_eq. simpl. apply not_elem_of_dom, is_fresh. Qed.

Lemma toggle_live (prev : loc) (x : Z) (h : Favorites.set_heap) :
  is_Some (fst (Favorites.toggle prev x h) !! snd (Favorites.toggle prev x h)).
Proof. rewrite toggle_eq. simpl. rewrite lookup_insert_eq. eauto. Qed.

Lemma toggle_keeps (prev : loc) (x : Z) (h : Favorites.set_heap) (r : loc) :
  is_Some (h !! r) ->
  fst (Favorites.toggle prev x h) !! r = h !! r
  /\ Favorites.members (fst (Favorites.toggle prev x h)) r = Favorites.members h r
  /\ snd (Favorites.toggle prev x h) <> r.
Proof.
  intros [v Hr].
  assert (Hne : snd (Favorites.toggle prev x h) <> r).
  { intros E. pose proof (toggle_fresh prev x h) as F. rewrite E, Hr in F. discriminate F. }
  assert (E : fst (Favorites.toggle prev x h) !! r = h !! r).
  { rewrite toggle_eq in *. simpl in *. apply lookup_insert_ne, Hne. }
  unfold Favorites.members. rewrite E. auto.
Qed.

Lemma toggle_has (prev : loc) (x y : Z) (h : Favorites.set_heap) :
  Favorites.has (fst (Favorites.toggle prev x h)) (snd (Favorites.toggle prev x h)) y
  = if decide (y = x) then negb (Favorites.has h prev y) else Favorites.has h prev y.
Proof.
  unfold Favorites.has. rewrite toggle_members.
  apply eq_true_iff_eq. rewrite bool_decide_eq_true, elem_of_flipped.
  destruct (decide (y = x)) as [-> | Hne].
  - rewrite negb_true_iff, bool_decide_eq_false. tauto.
  - rewrite bool_decide_eq_true. tauto.
Qed.

(** X10. Toggling the same id twice gives back the members of the set one
    started from, in a third set object: neither toggle changes the set it
    starts from. *)
Theorem toggling_twice_restores_the_members
  (h : Favorites.set_heap) (prev : loc) (s : gset Z) (x : Z) :
  h !! prev = Some s ->
  exists h1 once h2 twice,
    Favorites.toggle prev x h = (h1, once)
    /\ Favorites.toggle once x h1 = (h2, twice)
    /\ h2 !! twice = Some s
    /\ twice <> once /\ twice <> prev /\ once <> prev
    /\ h2 !! prev = Some s
    /\ Favorites.has h2 once x = negb (Favorites.has h prev x).
Proof.
  intros Hp.
  destruct (Favorites.toggle prev x h) as [h1 once] eqn:T1.
  destruct (Favorites.toggle once x h1) as [h2 twice] eqn:T2.
  pose proof (toggle_members prev x h) as M1.
  pose proof (toggle_keeps prev x h prev ltac:(eauto)) as (K1 & _ & N1).
  pose proof (toggle_live prev x h) as L1.
  pose proof (toggle_has prev x x h) as H1.
  rewrite T1 in M1, K1, N1, L1, H1. simpl in M1, K1, N1, L1, H1.
  pose proof (toggle_members once x h1) as M2.
  pose proof (toggle_keeps once x h1 once L1) as (K2 & KM2 & N2).
  pose proof (toggle_keeps once x h1 prev ltac:(rewrite K1; eauto)) as (K3 & _ & N3).
  rewrite T2 in M2, K2, KM2, N2, K3, N3. simpl in M2, K2, KM2, N2, K3, N3.
  assert (Hs : Favorites.members h prev = s)
    by (unfold Favorites.members; rewrite Hp; reflexivity).
  assert (E : Favorites.members h2 twice = s).
  { rewrite M2, M1, Hs. apply set_eq. intros y.
    rewrite !elem_of_flipped. destruct (decide (y = x)), (decide (y ∈ s)); tauto. }
  exists h1, once, h2, twice.
  split; [reflexivity |]. split; [exact T2 |].
  split.
  { pose proof (toggle_eq once x h1) as Q. rewrite T2 in Q.
    injection Q as -> ->. rewrite lookup_insert_eq. f_equal.
    rewrite <- E, members_insert. reflexivity. }
  split; [exact N2 |]. split; [exact N3 |]. split; [exact N1 |].
  split; [rewrite K3, K1; exact Hp |].
  unfold Favorites.has at 1. rewrite KM2. fold (Favorites.has h1 once x).
  rewrite H1. rewrite decide_True by reflexivity. reflexivity.
Qed.

Lemma toggling_twice_restores_the_members_witness :
  exists h1 once h2 twice,
    Favorites.toggle 1%positive 7 {[ 1%positive := ({[ 3; 7 ]} : gset Z) ]} = (h1, once)
    /\ Favorites.toggle once 7 h1 = (h2, twice)
    /\ h2 !! twice = Some ({[ 3; 7 ]} : gset Z)
    /\ twice <> once /\ twice <> 1%positive /\ once <> 1%positive
    /\ h2 !! 1%positive = Some ({[ 3; 7 ]} : gset Z)
    /\ Favorites.has h2 once 7
       = negb (Favorites.has {[ 1%positive := ({[ 3; 7 ]} : gset Z) ]} 1%positive 7).
Proof.
  apply (toggling_twice_restores_the_members
           {[ 1%positive := ({[ 3; 7 ]} : gset Z) ]} 1%positive {[ 3; 7 ]} 7).
  apply lookup_singleton_eq.
Defined.

(** X11. Toggles of two ids commute: in either order the resulting set has the
    same members. *)
Theorem toggles_commute (h : Favorites.set_heap) (prev : loc) (x y : Z) :
  let xy := Favorites.toggle (snd (Favorites.toggle prev x h)) y
              (fst (Favorites.toggle prev x h)) in
  let yx := Favorites.toggle (snd (Favorites.toggle prev y h)) x
              (fst (Favorites.toggle prev y h)) in
  Favorites.members (fst xy) (snd xy) = Favorites.members (fst yx) (snd yx)
  /\ (forall z, Favorites.has (fst xy) (snd xy) z = Favorites.has (fst yx) (snd yx) z).
Proof.
  cbv zeta.
  assert (E : Favorites.members
                (fst (Favorites.toggle (snd (Favorites.toggle prev x h)) y
                        (fst (Favorites.toggle prev x h))))
                (snd (Favorites.toggle (snd (Favorites.toggle prev x h)) y
                        (fst (Favorites.toggle prev x h))))
              = Favorites.members
                  (fst (Favorites.toggle (snd (Favorites.toggle prev y h)) x
                          (fst (Favorites.toggle prev y h))))
                  (snd (Favorites.toggle (snd (Favorites.toggle prev y h)) x
                          (fst (Favorites.toggle prev y h))))).
  { rewrite !toggle_members. apply set_eq. intros z.
    rewrite !elem_of_flipped.
    destruct (decide (z = x)), (decide (z = y)),
      (decide (z ∈ Favorites.members h prev)); tauto. }
  split; [exact E |]. intros z. unfold Favorites.has. rewrite E. reflexivity.
Qed.

(** X12. After a toggle of [x], the row renderer finds the same item at every
    index, and its star is flipped exactly when the item's id is [x]: the
    stars of all other rows stay as they were. *)
Theorem toggle_flips_the_star_of_that_id_only
  (index : Z) (data : ItemData) (h : heap) (sets : Favorites.set_heap) (x : Z)
  (item : Item) (star : bool) :
  RowRenderer index data h sets = Some (item, star) ->
  RowRenderer index
    {| data_list := data_list data;
       data_favorites := snd (Favorites.optToggle x (data_favorites data) sets) |}
    h (fst (Favorites.optToggle x (data_favorites data) sets))
  = Some (item, if decide (id item = x) then negb star else star).
Proof.
  unfold RowRenderer, Favorites.optToggle. cbn [data_list data_favorites].
  destruct (array_get (deref h (data_list data)) index) as [it|]; [| discriminate].
  intros [= -> <-]. rewrite toggle_has. reflexivity.
Qed.

Lemma toggle_flips_the_star_of_that_id_only_witness :
  RowRenderer 1 {| data_list := 1%positive; data_favorites := 1%positive |}
    {[ 1%positive := Sample.dataset ]} {[ 1%positive := ({[ 2 ]} : gset Z) ]}
  = Some (Sample.Alpha, true)
  /\ RowRenderer 1
       {| data_list := 1%positive;
          data_favorites :=
            snd (Favorites.optToggle 3 1%positive {[ 1%positive := ({[ 2 ]} : gset Z) ]}) |}
       {[ 1%positive := Sample.dataset ]}
       (fst (Favorites.optToggle 3 1%positive {[ 1%positive := ({[ 2 ]} : gset Z) ]}))
     = Some (Sample.Alpha, if decide (id Sample.Alpha = 3) then negb true else true).
Proof.
  assert (R : RowRenderer 1 {| data_list := 1%positive; data_favorites := 1%positive |}
                {[ 1%positive := Sample.dataset ]} {[ 1%positive := ({[ 2 ]} : gset Z) ]}
              = Some (Sample.Alpha, true)) by (vm_compute; reflexivity).
  split; [exact R |].
  exact (toggle_flips_the_star_of_that_id_only 1
           {| data_list := 1%positive; data_favorites := 1%positive |}
           {[ 1%positive := Sample.dataset ]} {[ 1%positive := ({[ 2 ]} : gset Z) ]}
           3 Sample.Alpha true R).
Defined.

(** ** The two rows side by side *)

Lemma OptimizedRow_eq (cell : option (Z * Z)) (item : Item) (isFavorite : bool) :
  validCell cell ->
  OptimizedRow cell item isFavorite
  = (Some (price item, fakeCalc (price item)),
     {| shown_name := name item; shown_price := price item;
        shown_category := category item; shown_star := isFavorite;
        shown_calc := fakeCalc (price item) |}).
Proof.
  unfold OptimizedRow, useMemo, validCell. destruct cell as [[p v]|]; [| reflexivity].
  intros ->. destruct (decide (p = price item)) as [-> | _]; reflexivity.
Qed.

(** X13. A row of the optimized list shows exactly what the naive row shows for
    the same item and favourite flag, whatever the row instance rendered
    before; afterwards its memo cell holds the item's price and the value
    shown. *)
Theorem optimized_row_shows_what_the_naive_row_shows
  (history : list (Item * bool)) (item : Item) (isFavorite : bool) :
  snd (OptimizedRow (rowCell history) item isFavorite) = NaiveRow item isFavorite
  /\ fst (OptimizedRow (rowCell history) item isFavorite)
     = Some (price item, shown_calc (NaiveRow item isFavorite)).
Proof.
  rewrite (OptimizedRow_eq _ item isFavorite (rowCell_valid history)).
  rewrite NaiveRow_fakeCalc. cbn [fst snd].
  split; [| reflexivity].
  unfold NaiveRow, fakeCalc. rewrite reduce_add_spec. reflexivity.
Qed.

(** X14. The value after [calc:] is the one the optimized row computes. For
    a price whose 500-fold is at most 2^53 in magnitude (the sums of the
    loop are then exact) it lies between 0 and 6 for a non-negative price
    (between -6 and 0 for a negative one), and it is 0 exactly for the
    prices that are multiples of 7. *)
Theorem calc_is_a_remainder_by_7 (item : Item) (isFavorite : bool) :
  - 2 ^ 53 <= 500 * price item <= 2 ^ 53 ->
  (0 <= price item -> 0 <= shown_calc (NaiveRow item isFavorite) <= 6)
  /\ (price item <= 0 -> -6 <= shown_calc (NaiveRow item isFavorite) <= 0)
  /\ (shown_calc (NaiveRow item isFavorite) = 0 <-> (7 | price item))
  /\ fakeCalc (price item) = shown_calc (NaiveRow item isFavorite).
Proof.
  intros Hr. rewrite NaiveRow_calc, fakeCalc_spec by exact Hr.
  split; [| split; [| split; [| reflexivity]]].
  - intros Hp.
    pose proof (Z.rem_bound_pos (500 * price item) 7 ltac:(lia) ltac:(lia)). lia.
  - intros Hp.
    pose proof (Z.rem_bound_pos_neg (500 * price item) 7 ltac:(lia) ltac:(lia)). lia.
  - rewrite Z.rem_divide by discriminate. split.
    + intros Hd. apply (Z.gauss 7 500); [exact Hd | reflexivity].
    + intros Hd. apply Z.divide_mul_r, Hd.
Qed.

Lemma calc_is_a_remainder_by_7_witness :
  - 2 ^ 53 <= 500 * price Sample.Zeta <= 2 ^ 53
  /\ 0 <= price Sample.Zeta
  /\ 0 <= shown_calc (NaiveRow Sample.Zeta false) <= 6.
Proof.
  assert (Hr : - 2 ^ 53 <= 500 * price Sample.Zeta <= 2 ^ 53)
    by (vm_compute; split; discriminate).
  split; [exact Hr |]. split; [discriminate |].
  exact (proj1 (calc_is_a_remainder_by_7 Sample.Zeta false Hr) ltac:(discriminate)).
Defined.

(** ** Mouse events

    A mouse event is delivered to the element under the pointer and then to
    each ancestor, innermost first, until a handler calls
    [e.stopPropagation()]. A path lists the elements from the target up. *)

Section Events.
Context {St : Type}.

Record Handler : Type := mkHandler {
  effect : St -> St;
  stopsPropagation : bool
}.

Record Element : Type := mkElement {
  onClick : option Handler;
  onDoubleClick : option Handler
}.

(** An element without handlers. *)
Definition plain : Element := {| onClick := None; onDoubleClick := None |}.

(** [onClick={f}], where [f] does not stop the event. *)
Definition clickable (f : St -> St) : Element :=
  {| onClick := Some {| effect := f; stopsPropagation := false |};
     onDoubleClick := None |}.

Fixpoint dispatch (pick : Element -> option Handler) (path : list Element)
  (s : St) : St :=
  match path with
  | [] => s
  | el :: ancestors =>
      match pick el with
      | None => dispatch pick ancestors s
      | Some handler =>
          if stopsPropagation handler then effect handler s
          else dispatch pick ancestors (effect handler s)
      end
  end.

Definition click : list Element -> St -> St := dispatch onClick.
Definition doubleClick : list Element -> St -> St := dispatch onDoubleClick.

(** The parts of the dialog of [ProductDetails] a pointer can be on. *)
Inductive ModalPart : Type :=
| Backdrop | PanelBox | Heading | Paragraph | CloseButton.

(** [ProductDetails] (both files): the outer [div] closes on click, the
    inner [div] stops the event, the button closes. *)
Definition ProductDetails (onClose : St -> St) (part : ModalPart) : list Element :=
  let outer := clickable onClose in
  let inner := {| onClick := Some {| effect := fun s => s; stopsPropagation := true |};
                  onDoubleClick := None |} in
  match part with
  | Backdrop => [outer]
  | PanelBox => [inner; outer]
  | Heading | Paragraph => [plain; inner; outer]
  | CloseButton => [clickable onClose; inner; outer]
  end.

(** The parts of a row a pointer can be on. *)
Inductive RowPart : Type :=
| RowBox | NameText | PriceText | CategoryText | StarButton | CalcText.

(** [NaiveRow]: the row [div] has [onClick={handleOpen}], the button has
    [onClick={() => onToggle(item.id)}]. *)
Definition NaiveRowPath (item : Item) (onToggle onOpen : Z -> St -> St)
  (part : RowPart) : list Element :=
  let row := clickable (onOpen (id item)) in
  match part with
  | RowBox => [row]
  | StarButton => [clickable (onToggle (id item)); row]
  | NameText | PriceText | CategoryText | CalcText => [plain; row]
  end.

(** [OptimizedRow] inside the [div] of [RowRenderer]: the button toggles,
    the row [div] has no handler, the wrapper has
    [onDoubleClick={() => open(item.id)}]. *)
Definition RowRendererPath (item : Item) (onToggle open : Z -> St -> St)
  (part : RowPart) : list Element :=
  let wrapper := {| onClick := None;
                    onDoubleClick := Some {| effect := open (id item);
                                             stopsPropagation := false |} |} in
  match part with
  | RowBox => [plain; wrapper]
  | StarButton => [clickable (onToggle (id item)); plain; wrapper]
  | NameText | PriceText | CategoryText | CalcText => [plain; plain; wrapper]
  end.

End Events.

(** ** The state of [App] and its handlers *)

Module App.

(** The state both [App] components declare, with the heap of sets the
    [favorites] reference points into. *)
Record State : Type := mkState {
  sets : Favorites.set_heap;
  favorites : loc;
  search : js_string;
  sortBy : SortKey;
  showDetailsFor : option Z
}.

Definition setShowDetailsFor (v : option Z) (st : State) : State :=
  {| sets := sets st; favorites := favorites st; search := search st;
     sortBy := sortBy st; showDetailsFor := v |}.

(** [onOpen={setShowDetailsFor}], called with an id. *)
Definition open (x : Z) : State -> State := setShowDetailsFor (Some x).

(** [onClose={() => setShowDetailsFor(null)}] *)
Definition onClose : State -> State := setShowDetailsFor None.

Definition setFavorites (update : loc -> Favorites.set_heap -> Favorites.set_heap * loc)
  (st : State) : State :=
  let '(h, next) := update (favorites st) (sets st) in
  {| sets := h; favorites := next; search := search st;
     sortBy := sortBy st; showDetailsFor := showDetailsFor st |}.

Definition naiveToggle (x : Z) : State -> State :=
  setFavorites (fun favorites h => Favorites.naiveToggle favorites x h).

Definition optToggle (x : Z) : State -> State :=
  setFavorites (Favorites.optToggle x).

Definition isFavorite (st : State) (x : Z) : bool :=
  Favorites.has (sets st) (favorites st) x.

(** What [{showDetailsFor && (<ProductDetails id={showDetailsFor} ... />)}]
    renders: nothing for [null], the number itself for [0] (falsy, and React
    renders a number), the dialog otherwise. *)
Inductive DetailsSlot : Type :=
| Nothing
| TextZero
| Dialog (id : Z).

Definition detailsSlot (st : State) : DetailsSlot :=
  match showDetailsFor st with
  | None => Nothing
  | Some 0 => TextZero
  | Some x => Dialog x
  end.

End App.

(** ** What a click does *)

Lemma dispatch_plain_ancestors {St : Type} (pick : @Element St -> option Handler)
  (path : list Element) (n : nat) (s : St) :
  pick plain = None ->
  dispatch pick (path ++ repeat plain n) s = dispatch pick path s.
Proof.
  intros Hplain. revert s. induction path as [|el path IH]; intros s; simpl.
  - induction n as [|n IHn]; simpl; [reflexivity |]. rewrite Hplain. exact IHn.
  - destruct (pick el) as [handler|]; [| apply IH].
    destruct (stopsPropagation handler); [reflexivity | apply IH].
Qed.

Lemma toggle_isFavorite (x y : Z) (st : App.State) :
  App.isFavorite (App.optToggle x st) y
  = (if decide (y = x) then negb (App.isFavorite st y) else App.isFavorite st y)
  /\ App.isFavorite (App.naiveToggle x st) y
     = (if decide (y = x) then negb (App.isFavorite st y) else App.isFavorite st y)
  /\ App.showDetailsFor (App.optToggle x st) = App.showDetailsFor st
  /\ App.showDetailsFor (App.naiveToggle x st) = App.showDetailsFor st.
Proof.
  unfold App.optToggle, App.naiveToggle, App.setFavorites, App.isFavorite,
    Favorites.optToggle, Favorites.naiveToggle.
  pose proof (toggle_has (App.favorites st) x y (App.sets st)) as H.
  destruct (Favorites.toggle (App.favorites st) x (App.sets st)) as [h next].
  cbn [fst snd App.sets App.favorites App.showDetailsFor] in *.
  repeat split; first [exact H | reflexivity].
Qed.

(** X15. A click in the dialog calls [onClose] exactly once when it lands on the
    backdrop or on the Close button, and not at all when it lands anywhere
    else in the panel: the inner [div] stops the event, so the button's
    click does not reach the backdrop handler a second time. With the
    handler [App] passes, the dialog is gone afterwards and the rest of the
    state is as before. *)
Theorem dialog_closes_from_backdrop_and_button_only
  {St : Type} (onClose : St -> St) (part : ModalPart) (ancestors : nat) (s : St)
  (st : App.State) :
  click (ProductDetails onClose part ++ repeat plain ancestors) s
  = match part with
    | Backdrop | CloseButton => onClose s
    | PanelBox | Heading | Paragraph => s
    end
  /\ App.detailsSlot (click (ProductDetails App.onClose CloseButton) st) = App.Nothing
  /\ App.detailsSlot (click (ProductDetails App.onClose Backdrop) st) = App.Nothing
  /\ (forall x, App.isFavorite (click (ProductDetails App.onClose part) st) x
                = App.isFavorite st x).
Proof.
  split.
  - unfold click. rewrite dispatch_plain_ancestors by reflexivity.
    destruct part; reflexivity.
  - split; [reflexivity |]. split; [reflexivity |].
    intros x. destruct part; reflexivity.
Qed.

(** X16. In the naive list a click on the star of a row toggles that id and, as
    the click goes on to the row, also opens the dialog for that id; a click
    anywhere else on the row only opens the dialog. In the optimized list a
    click on the star toggles that id and never changes which dialog is
    open, and a click elsewhere on the row does nothing. *)
Theorem star_click_in_the_naive_row_also_opens_the_dialog
  (item : Item) (part : RowPart) (ancestors : nat) (st : App.State) :
  let naive := click (NaiveRowPath item App.naiveToggle App.open part
                        ++ repeat plain ancestors) st in
  let optimized := click (RowRendererPath item App.optToggle App.open part
                            ++ repeat plain ancestors) st in
  let expected y :=
    match part with
    | StarButton =>
        if decide (y = id item) then negb (App.isFavorite st y)
        else App.isFavorite st y
    | _ => App.isFavorite st y
    end in
  App.showDetailsFor naive = Some (id item)
  /\ App.showDetailsFor optimized = App.showDetailsFor st
  /\ (forall y, App.isFavorite naive y = expected y)
  /\ (forall y, App.isFavorite optimized y = expected y).
Proof.
  cbv zeta. unfold click. rewrite !dispatch_plain_ancestors by reflexivity.
  destruct part; cbn [NaiveRowPath RowRendererPath dispatch clickable plain onClick
                        stopsPropagation effect];
    try (repeat split; intros; reflexivity).
  pose proof (fun y => toggle_isFavorite (id item) y st) as T.
  split; [reflexivity |].
  split; [apply (T 0) |].
  split; intros y; destruct (T y) as (To & Tn & _).
  - change (App.isFavorite (App.open (id item) (App.naiveToggle (id item) st)) y)
      with (App.isFavorite (App.naiveToggle (id item) st) y).
    exact Tn.
  - exact To.
Qed.

(** X17. A double click on a row of the optimized list (two clicks, then the
    double-click event, on the same part) opens the dialog for that row's
    id and leaves every id's favourite status as it was, also when it lands
    on the star, which is then toggled twice. *)
Theorem double_click_opens_and_keeps_the_favourites
  (item : Item) (part : RowPart) (ancestors : nat) (st : App.State) :
  let path := RowRendererPath item App.optToggle App.open part
              ++ repeat plain ancestors in
  let after := doubleClick path (click path (click path st)) in
  App.showDetailsFor after = Some (id item)
  /\ (forall y, App.isFavorite after y = App.isFavorite st y).
Proof.
  cbv zeta. unfold click, doubleClick.
  rewrite !dispatch_plain_ancestors by reflexivity.
  destruct part; cbn [RowRendererPath dispatch clickable plain onClick onDoubleClick
                        stopsPropagation effect];
    try (split; intros; reflexivity).
  split; [reflexivity |]. intros y.
  change (App.isFavorite
            (App.open (id item) (App.optToggle (id item) (App.optToggle (id item) st))) y)
    with (App.isFavorite (App.optToggle (id item) (App.optToggle (id item) st)) y).
  destruct (toggle_isFavorite (id item) y (App.optToggle (id item) st)) as (-> & _).
  destruct (toggle_isFavorite (id item) y st) as (-> & _).
  destruct (decide (y = id item)); [apply negb_involutive | reflexivity].
Qed.

(** X18. Every row of the generated items can be opened: its id is at least 1,
    so after a click on the naive row, or a double click on the optimized
    one, the dialog for that id is rendered, and a click on Close removes
    it. Only the id 0 would not open a dialog: the number is rendered
    instead. *)
Theorem every_generated_row_opens_its_dialog
  (random : nat -> Q) (toString36 : Q -> js_string) (n : Z) (items : list Item)
  (item : Item) (part : RowPart) (st : App.State) :
  createItems random toString36 n = Returned items ->
  In item items ->
  1 <= id item
  /\ App.detailsSlot (click (NaiveRowPath item App.naiveToggle App.open part) st)
     = App.Dialog (id item)
  /\ App.detailsSlot
       (doubleClick (RowRendererPath item App.optToggle App.open part) st)
     = App.Dialog (id item)
  /\ App.detailsSlot
       (click (ProductDetails App.onClose CloseButton)
          (click (NaiveRowPath item App.naiveToggle App.open part) st))
     = App.Nothing
  /\ (forall x, App.detailsSlot (App.open x st) = App.Dialog x <-> x <> 0).
Proof.
  intros Hc Hin. apply createItems_inv in Hc as [m ->].
  apply in_map_iff in Hin as (i & <- & _).
  assert (Hid : 1 <= id (createItem random toString36 i)) by (cbn [id createItem]; lia).
  assert (Slot : forall s x, 1 <= x ->
            App.showDetailsFor s = Some x -> App.detailsSlot s = App.Dialog x).
  { intros s x Hx E. unfold App.detailsSlot. rewrite E. destruct x; [lia | reflexivity | lia]. }
  split; [exact Hid |].
  split.
  { apply Slot; [exact Hid |]. destruct part; reflexivity. }
  split.
  { apply Slot; [exact Hid |]. destruct part; reflexivity. }
  split; [reflexivity |].
  intros x. unfold App.detailsSlot, App.open. simpl.
  destruct x; split; intros H; try reflexivity; try discriminate; congruence.
Qed.

Lemma every_generated_row_opens_its_dialog_witness :
  createItems Sample.random Sample.toString36 3
  = Returned (List.map (createItem Sample.random Sample.toString36) (seq 0 3))
  /\ 1 <= id (createItem Sample.random Sample.toString36 2).
Proof.
  split; [reflexivity |].
  exact (proj1 (every_generated_row_opens_its_dialog Sample.random Sample.toString36
                  3 _ (createItem Sample.random Sample.toString36 2) StarButton
                  {| App.sets := ∅; App.favorites := 1%positive; App.search := [];
                     App.sortBy := ByName; App.showDetailsFor := None |}
                  eq_refl ltac:(right; right; left; reflexivity))).
Defined.

(** ** Searching and allocating *)

(** X19. Typing an item's own name into the filter finds that item, for every
    sort key and every host. *)
Theorem searching_a_name_finds_the_item
  (toLowerCase : js_string -> js_string)
  (localeCompare : js_string -> js_string -> Z)
  (items : list Item) (item : Item) (k : SortKey) :
  In item items ->
  In item (optimizedList toLowerCase localeCompare items (name item) k)
  /\ In item (naiveList toLowerCase localeCompare items (name item) k).
Proof.
  intros Hin. rewrite optimizedList_naiveList.
  assert (N : In item (naiveList toLowerCase localeCompare items (name item) k)).
  { apply (Permutation_in _ (Permutation_sym
                               (naiveList_perm toLowerCase localeCompare items
                                  (name item) k))).
    unfold filteredItems. apply List.filter_In. split; [exact Hin |].
    unfold matches. apply includes_spec.
    exists [], []. rewrite app_nil_r. reflexivity. }
  split; exact N.
Qed.

Lemma searching_a_name_finds_the_item_witness :
  In Sample.Beta Sample.dataset
  /\ In Sample.Beta
       (optimizedList Sample.toLowerCase Sample.localeCompare Sample.dataset
          (name Sample.Beta) ByPrice).
Proof.
  assert (Hin : In Sample.Beta Sample.dataset) by (right; right; left; reflexivity).
  split; [exact Hin |].
  exact (proj1 (searching_a_name_finds_the_item Sample.toLowerCase
                  Sample.localeCompare Sample.dataset Sample.Beta ByPrice Hin)).
Defined.

Lemma alloc_size (v : list Item) (h : heap) :
  size (fst (alloc v h)) = S (size h).
Proof.
  unfold alloc. simpl. apply map_size_insert_None, not_elem_of_dom, is_fresh.
Qed.

Lemma spread_sort_size (cmp : Item -> Item -> Z) (base : loc) (h : heap) :
  size (fst (array_sort cmp (snd (array_spread base h)) (fst (array_spread base h))))
  = S (size h).
Proof.
  pose proof (spread_sort_spec cmp base h) as S.
  destruct (array_spread base h) as [h2 copy]. destruct S as [S1 S2].
  cbn [fst snd]. rewrite S2. cbn [fst]. apply map_size_insert_None, S1.
Qed.

(** X20. How many arrays of items the derived view creates; the heap holds
    the arrays of items and no others (the elements rendered from the rows,
    the 500 slots of a naive row and the dependency lists are arrays without
    items and are not counted). The naive list expression creates one array
    of items, every time: the filter result, which is then sorted in place.
    The memoized list creates none when its dependencies are the stored
    ones; otherwise its callback creates the sorted copy, and one more array
    of items (the filter result) when the lower-cased filter text is not
    empty. *)
Theorem item_arrays_created_by_the_derived_view
  (toLowerCase : js_string -> js_string)
  (localeCompare : js_string -> js_string -> Z)
  (e : Engine) (items : loc) (q : js_string) (k : SortKey) :
  let recompute := if JsString.truthy (toLowerCase q) then 2%nat else 1%nat in
  size (objects (fst (render toLowerCase localeCompare items q k e)))
  = (size (objects e)
     + match listCell e with
       | Some (deps, _) => if decide (deps = (items, q, k)) then 0 else recompute
       | None => recompute
       end)%nat
  /\ size (fst (naiveView toLowerCase localeCompare items q k (objects e)))
     = S (size (objects e)).
Proof.
  cbv zeta. split.
  - assert (C : size (fst (createOptimizedList toLowerCase localeCompare items q k
                             (objects e)))
                = (size (objects e)
                   + if JsString.truthy (toLowerCase q) then 2 else 1)%nat).
    { unfold createOptimizedList. cbv zeta.
      destruct (JsString.truthy (toLowerCase q)).
      - unfold array_filter.
        pose proof (alloc_size (List.filter (matches toLowerCase (toLowerCase q))
                                  (deref (objects e) items)) (objects e)) as A.
        destruct (alloc _ (objects e)) as [h1 base]. cbn [fst] in A.
        pose proof (spread_sort_size (compareItems localeCompare k) base h1) as S.
        destruct (array_spread base h1) as [h2 copy]. cbn [fst snd] in S.
        rewrite S, A. lia.
      - pose proof (spread_sort_size (compareItems localeCompare k) items (objects e)) as S.
        destruct (array_spread items (objects e)) as [h2 copy]. cbn [fst snd] in S.
        rewrite S. lia. }
    unfold render, useMemo, createTotal.
    destruct (listCell e) as [[deps v]|];
      [destruct (decide (deps = (items, q, k))) as [-> | _] |];
      try destruct (createOptimizedList _ _ _ _ _ _) as [h' r];
      (destruct (totalCell e) as [[d' v']|];
       [destruct (decide (d' = _)) as [-> | _] |]);
      cbn [fst snd objects] in *; lia.
  - unfold naiveView, array_filter, array_sort.
    pose proof (alloc_spec (List.filter (matches toLowerCase (toLowerCase q))
                              (deref (objects e) items)) (objects e)) as [F1 F2].
    destruct (alloc _ (objects e)) as [h1 filtered]. cbn [fst snd] in *. subst h1.
    rewrite alter_insert_eq. apply map_size_insert_None, F1.
Qed.
